(** * Security-group rule sets, imported security groups and imported topics

    A shallow embedding of

      - packages/@aws-cdk/aws-ec2/lib/security-group.ts
        (SecurityGroupBase, SecurityGroup, ImportedSecurityGroup, the two
        rule-equality predicates, [isAllTrafficRule] and the two sentinel
        rules), and
      - the SNS topic file (Topic.import and ImportedTopic),

    followed by the properties of the rule-set bookkeeping.

    Rules are JavaScript objects assembled with object spread, so they are
    finite maps from property names to primitive values.  The methods mutate
    [this] and one of them throws after it has mutated, so they live in a
    small state-and-exception monad whose state survives a [throw]. *)

From stdpp Require Import base option list strings gmap fin_maps.
From Stdlib Require Import ZArith Ascii String.

Open Scope string_scope.
Open Scope Z_scope.

(** ** JavaScript values and objects *)

(** The values held by rule properties: strings (CIDR blocks, protocol
    names, group ids), numbers (ports; always integers here) and
    [undefined], which is also what reading an absent property gives. *)
Inductive JsVal : Type :=
  | JUndefined
  | JStr (s : string)
  | JNum (n : Z).

#[global] Instance JsVal_eq_dec : EqDecision JsVal.
Proof. solve_decision. Defined.

(** An object literal. *)
Abbreviation JsObj := (gmap string JsVal).

(** [o.k] *)
Definition prop (o : JsObj) (k : string) : JsVal :=
  default JUndefined (o !! k).

(** [a === b] on primitive values. *)
Definition strict_eq (a b : JsVal) : bool := bool_decide (a = b).

(** [{ ...a, ...b }]: the properties of [b] win. *)
Definition spread (a b : JsObj) : JsObj := b ∪ a.

(** ** Peers and port ranges (security-group-rule.ts interfaces) *)

(** [ISecurityGroupRule]: what [SecurityGroup] reads of a peer. *)
Record ISecurityGroupRule : Type := {
  peer_canInlineRule : bool;
  uniqueId : string;
  toIngressRuleJSON : JsObj;
  toEgressRuleJSON : JsObj
}.

(** [IPortRange]: what [SecurityGroup] reads of a connection;
    [port_toString] is what the template literal [`${connection}`] yields. *)
Record IPortRange : Type := {
  port_canInlineRule : bool;
  toRuleJSON : JsObj;
  port_toString : string
}.

(** ** Sentinel rules *)

Definition MATCH_NO_TRAFFIC : JsObj :=
  {[ "cidrIp" := JStr "255.255.255.255/32";
     "description" := JStr "Disallow all traffic";
     "ipProtocol" := JStr "icmp";
     "fromPort" := JNum 252;
     "toPort" := JNum 86 ]}.

Definition ALLOW_ALL_RULE : JsObj :=
  {[ "cidrIp" := JStr "0.0.0.0/0";
     "description" := JStr "Allow all outbound traffic by default";
     "ipProtocol" := JStr "-1" ]}.

(** ** Rule equality (description discarded) *)

Definition same (k : string) (a b : JsObj) : bool :=
  strict_eq (prop a k) (prop b k).

Definition ingressRulesEqual (a b : JsObj) : bool :=
  same "cidrIp" a b
  && same "cidrIpv6" a b
  && same "fromPort" a b
  && same "toPort" a b
  && same "ipProtocol" a b
  && same "sourceSecurityGroupId" a b
  && same "sourceSecurityGroupName" a b
  && same "sourceSecurityGroupOwnerId" a b.

Definition egressRulesEqual (a b : JsObj) : bool :=
  same "cidrIp" a b
  && same "cidrIpv6" a b
  && same "fromPort" a b
  && same "toPort" a b
  && same "ipProtocol" a b
  && same "destinationPrefixListId" a b
  && same "destinationSecurityGroupId" a b.

Definition isAllTrafficRule (rule : JsObj) : bool :=
  strict_eq (prop rule "cidrIp") (JStr "0.0.0.0/0")
  && strict_eq (prop rule "ipProtocol") (JStr "-1").

(** ** Arrays *)

(** [Array.prototype.findIndex]: the index of the first element satisfying
    [f], counted from [i], and [-1] when there is none. *)
Fixpoint findIndexFrom {A : Type} (f : A → bool) (l : list A) (i : Z) : Z :=
  match l with
  | [] => -1
  | x :: l' => if f x then i else findIndexFrom f l' (i + 1)
  end.

Definition findIndex {A : Type} (f : A → bool) (l : list A) : Z :=
  findIndexFrom f l 0.

(** [l.splice(i, 1)] for an index [i] that [findIndex] returned. *)
Definition splice1 {A : Type} (i : Z) (l : list A) : list A :=
  delete (Z.to_nat i) l.

(** [s.replace('/', '_')]: a string pattern replaces the first occurrence
    only. *)
Fixpoint replace_slash (s : string) : string :=
  match s with
  | EmptyString => EmptyString
  | String c s' =>
      if Ascii.eqb c "/"%char then String "_"%char s'
      else String c (replace_slash s')
  end.

(** ** The construct tree under a security group *)

(** The resources a security group creates as children of itself. *)
Inductive CfnResource : Type :=
  | CfnSecurityGroup (groupName : option string) (groupDescription vpcId : string)
  | CfnSecurityGroupIngress (props : JsObj)
  | CfnSecurityGroupEgress (props : JsObj).

(** Modelled from the spec: the resource attributes of [CfnSecurityGroup]
    (ec2.generated, not under src/) are tokens rendered as strings; the
    model keeps the owner's path and the attribute name. *)
Definition getAtt (path attr : string) : string :=
  "${" ++ path ++ "." ++ attr ++ "}".

(** ** The state of a [SecurityGroup] *)

Record SecurityGroup : Type := {
  path : string;
  children : gmap string CfnResource;
  groupName : string;
  vpcId : string;
  securityGroupId : string;
  directIngressRules : list JsObj;
  directEgressRules : list JsObj;
  allowAllOutbound : bool
}.

(** ** Methods as state transformers that may throw *)

Inductive Completion (A : Type) : Type :=
  | Normal (a : A)
  | Throw (message : string).
Arguments Normal {A} a.
Arguments Throw {A} message.

(** A method run on [this]: how it completes, and [this] afterwards.  What
    was mutated before a [throw] stays mutated. *)
Definition M (A : Type) : Type := SecurityGroup → Completion A * SecurityGroup.

#[global] Instance M_ret : MRet M := λ A a this, (Normal a, this).

#[global] Instance M_bind : MBind M := λ A B k m this,
  match m this with
  | (Normal a, this') => k a this'
  | (Throw e, this') => (Throw e, this')
  end.

Definition throw {A : Type} (message : string) : M A :=
  λ this, (Throw message, this).

Definition this_ : M SecurityGroup := λ this, (Normal this, this).

(** Assignments to the fields that the methods mutate. *)
Definition with_children (c : gmap string CfnResource)
    (this : SecurityGroup) : SecurityGroup :=
  {| path := path this; children := c; groupName := groupName this;
     vpcId := vpcId this; securityGroupId := securityGroupId this;
     directIngressRules := directIngressRules this;
     directEgressRules := directEgressRules this;
     allowAllOutbound := allowAllOutbound this |}.

Definition with_directIngressRules (l : list JsObj)
    (this : SecurityGroup) : SecurityGroup :=
  {| path := path this; children := children this;
     groupName := groupName this; vpcId := vpcId this;
     securityGroupId := securityGroupId this;
     directIngressRules := l;
     directEgressRules := directEgressRules this;
     allowAllOutbound := allowAllOutbound this |}.

Definition with_directEgressRules (l : list JsObj)
    (this : SecurityGroup) : SecurityGroup :=
  {| path := path this; children := children this;
     groupName := groupName this; vpcId := vpcId this;
     securityGroupId := securityGroupId this;
     directIngressRules := directIngressRules this;
     directEgressRules := l;
     allowAllOutbound := allowAllOutbound this |}.

Definition set_children (c : gmap string CfnResource) : M unit :=
  λ this, (Normal (), with_children c this).

Definition set_directIngressRules (l : list JsObj) : M unit :=
  λ this, (Normal (), with_directIngressRules l this).

Definition set_directEgressRules (l : list JsObj) : M unit :=
  λ this, (Normal (), with_directEgressRules l this).

(** [path.split('/')]: the parts between the slashes, at least one. *)
Fixpoint split_slash (s : string) : list string :=
  match s with
  | EmptyString => [EmptyString]
  | String c s' =>
      if Ascii.eqb c "/"%char then EmptyString :: split_slash s'
      else match split_slash s' with
           | [] => [String c EmptyString]
           | part :: parts => String c part :: parts
           end
  end.

(** Modelled from the spec: [Construct] of '@aws-cdk/cdk' is not under src/.
    The resources registered under a security group have no children of
    their own. *)
Definition resource_children (r : CfnResource) : gmap string CfnResource := ∅.

(** Modelled from the spec: [Construct.tryFindChild(path)] takes its
    argument for a path: it splits it at the slashes and goes down from
    [this] one part at a time, giving [undefined] as soon as a part names no
    child.  (The ids looked up here start with "from " or "to ", never with
    the separator.) *)
Definition tryFindChild (this : SecurityGroup) (id : string) : option CfnResource :=
  match split_slash id with
  | [] => None
  | name :: parts =>
      foldl (λ curr part, r ← curr; resource_children r !! part)
            (children this !! name) parts
  end.

(** Modelled from the spec: the error of [Construct] for a name that is
    taken; it names the child and the parent. *)
Definition duplicate_construct_message (id : string) (this : SecurityGroup) : string :=
  "There is already a Construct with name '" ++ id ++ "' in SecurityGroup ["
  ++ path this ++ "]".

(** Modelled from the spec: [new CfnSecurityGroupIngress(this, id, props)]
    and [new CfnSecurityGroupEgress(this, id, props)] (ec2.generated) add the
    resource to the children of [this] under the name [id], taken as it is;
    the [Construct] constructor throws when [this] has a child of that name
    already. *)
Definition newChild (id : string) (r : CfnResource) : M unit :=
  this ← this_;
  match children this !! id with
  | Some _ => throw (duplicate_construct_message id this)
  | None => set_children (<[id := r]> (children this))
  end.

(** *** SecurityGroupBase *)

Definition SecurityGroupBase_addIngressRule
    (peer : ISecurityGroupRule) (connection : IPortRange)
    (description : option string) : M unit :=
  let id := "from " ++ uniqueId peer ++ ":" ++ port_toString connection in
  let description := default id description in
  let id := replace_slash id in
  this ← this_;
  (* Skip duplicates *)
  match tryFindChild this id with
  | None =>
      newChild id (CfnSecurityGroupIngress
        (<["description" := JStr description]>
           (spread (spread {["groupId" := JStr (securityGroupId this)]}
                           (toIngressRuleJSON peer))
                   (toRuleJSON connection))))
  | Some _ => mret ()
  end.

Definition SecurityGroupBase_addEgressRule
    (peer : ISecurityGroupRule) (connection : IPortRange)
    (description : option string) : M unit :=
  let id := "to " ++ uniqueId peer ++ ":" ++ port_toString connection in
  let description := default id description in
  let id := replace_slash id in
  this ← this_;
  (* Skip duplicates *)
  match tryFindChild this id with
  | None =>
      newChild id (CfnSecurityGroupEgress
        (<["description" := JStr description]>
           (spread (spread {["groupId" := JStr (securityGroupId this)]}
                           (toEgressRuleJSON peer))
                   (toRuleJSON connection))))
  | Some _ => mret ()
  end.

(** *** SecurityGroup *)

Definition hasIngressRule (rule : JsObj) : M bool :=
  this ← this_;
  mret (findIndex (λ r, ingressRulesEqual r rule) (directIngressRules this) >? -1).

Definition addDirectIngressRule (rule : JsObj) : M unit :=
  found ← hasIngressRule rule;
  if negb found then
    this ← this_; set_directIngressRules (directIngressRules this ++ [rule])
  else mret ().

Definition hasEgressRule (rule : JsObj) : M bool :=
  this ← this_;
  mret (findIndex (λ r, egressRulesEqual r rule) (directEgressRules this) >? -1).

Definition addDirectEgressRule (rule : JsObj) : M unit :=
  found ← hasEgressRule rule;
  if negb found then
    this ← this_; set_directEgressRules (directEgressRules this ++ [rule])
  else mret ().

Definition addDefaultEgressRule : M unit :=
  this ← this_;
  if allowAllOutbound this then
    set_directEgressRules (directEgressRules this ++ [ALLOW_ALL_RULE])
  else
    set_directEgressRules (directEgressRules this ++ [MATCH_NO_TRAFFIC]).

(** Remove the bogus rule if it exists. *)
Definition removeNoTrafficRule : M unit :=
  this ← this_;
  let i := findIndex (λ r, egressRulesEqual r MATCH_NO_TRAFFIC)
                     (directEgressRules this) in
  if i >? -1 then set_directEgressRules (splice1 i (directEgressRules this))
  else mret ().

(** The rule object of the inline paths:
    [{ ...peerJSON, ...connection.toRuleJSON(), description }]. *)
Definition inlineRule (peerJSON : JsObj) (connection : IPortRange)
    (description : string) : JsObj :=
  <["description" := JStr description]> (spread peerJSON (toRuleJSON connection)).

Definition defaultDescription (peer : ISecurityGroupRule)
    (connection : IPortRange) : string :=
  "from " ++ uniqueId peer ++ ":" ++ port_toString connection.

Definition canInline (peer : ISecurityGroupRule) (connection : IPortRange) : bool :=
  negb (negb (peer_canInlineRule peer) || negb (port_canInlineRule connection)).

Definition addIngressRule (peer : ISecurityGroupRule) (connection : IPortRange)
    (description : option string) : M unit :=
  if negb (peer_canInlineRule peer) || negb (port_canInlineRule connection) then
    SecurityGroupBase_addIngressRule peer connection description
  else
    let description := default (defaultDescription peer connection) description in
    addDirectIngressRule
      (inlineRule (toIngressRuleJSON peer) connection description).

Definition double_quote : string :=
  String (Ascii.Ascii false true false false false true false false) EmptyString.

Definition all_traffic_message : string :=
  "Cannot add an " ++ double_quote ++ "all traffic" ++ double_quote
  ++ " egress rule in this way; set allowAllOutbound=true on the SecurityGroup instead.".

Definition addEgressRule (peer : ISecurityGroupRule) (connection : IPortRange)
    (description : option string) : M unit :=
  this ← this_;
  if allowAllOutbound this then
    (* only the one rule that allows all traffic: nothing is added *)
    mret ()
  else
    (* the bogus rule, if it exists, can go *)
    removeNoTrafficRule;;
    if negb (peer_canInlineRule peer) || negb (port_canInlineRule connection) then
      SecurityGroupBase_addEgressRule peer connection description
    else
      let description := default (defaultDescription peer connection) description in
      let rule := inlineRule (toEgressRuleJSON peer) connection description in
      if isAllTrafficRule rule then throw all_traffic_message
      else addDirectEgressRule rule.

(** *** The constructor *)

Record SecurityGroupProps : Type := {
  props_groupName : option string;
  props_description : option string;
  props_vpcId : string;                  (* props.vpc.vpcId *)
  props_allowAllOutbound : option bool
}.

(** [a || b] on an optional string: [undefined] and the empty string are
    falsy. *)
Definition or_else (a : option string) (b : string) : string :=
  match a with
  | Some (String c s) => String c s
  | _ => b
  end.

(** [new SecurityGroup(parent, name, props)], for a parent whose path is
    [parentPath]; the tag manager is left out. *)
Definition new_SecurityGroup (parentPath name : string)
    (props : SecurityGroupProps) : SecurityGroup :=
  let path := parentPath ++ "/" ++ name in
  let groupDescription := or_else (props_description props) path in
  let this :=
    {| path := path;
       children := {[ "Resource" :=
         CfnSecurityGroup (props_groupName props) groupDescription
                          (props_vpcId props) ]};
       groupName := getAtt path "GroupName";
       vpcId := getAtt path "VpcId";
       securityGroupId := getAtt path "GroupId";
       directIngressRules := [];
       directEgressRules := [];
       (* props.allowAllOutbound !== false *)
       allowAllOutbound :=
         match props_allowAllOutbound props with
         | Some false => false
         | _ => true
         end |} in
  (addDefaultEgressRule this).2.

(** ** Sequences of calls *)

Inductive Call : Type :=
  | AddIngressRule (peer : ISecurityGroupRule) (connection : IPortRange)
                   (description : option string)
  | AddEgressRule (peer : ISecurityGroupRule) (connection : IPortRange)
                  (description : option string).

Definition call (c : Call) : M unit :=
  match c with
  | AddIngressRule p c d => addIngressRule p c d
  | AddEgressRule p c d => addEgressRule p c d
  end.

Definition raises {A : Type} (r : Completion A * SecurityGroup) : Prop :=
  ∃ message, r.1 = Throw message.

Definition succeeds {A : Type} (r : Completion A * SecurityGroup) : Prop :=
  ∃ a, r.1 = Normal a.

(** The group after a sequence of calls, each made on what the previous one
    left behind, whether it returned or threw. *)
Fixpoint run (cs : list Call) (this : SecurityGroup) : SecurityGroup :=
  match cs with
  | [] => this
  | c :: cs' => run cs' (call c this).2
  end.

(** Whether none of the calls throws. *)
Fixpoint all_return (cs : list Call) (this : SecurityGroup) : bool :=
  match cs with
  | [] => true
  | c :: cs' =>
      match call c this with
      | (Normal _, this') => all_return cs' this'
      | (Throw _, _) => false
      end
  end.

(** ** Concrete peers and port ranges (connections of the ec2 package) *)

Definition CidrIPv4 (cidrIp : string) : ISecurityGroupRule :=
  {| peer_canInlineRule := true;
     uniqueId := cidrIp;
     toIngressRuleJSON := {[ "cidrIp" := JStr cidrIp ]};
     toEgressRuleJSON := {[ "cidrIp" := JStr cidrIp ]} |}.

Definition AnyIPv4 : ISecurityGroupRule := CidrIPv4 "0.0.0.0/0".

(** Another security group as a peer ([SecurityGroupBase]): never inline. *)
Definition SecurityGroupPeer (id groupId : string) : ISecurityGroupRule :=
  {| peer_canInlineRule := false;
     uniqueId := id;
     toIngressRuleJSON := {[ "sourceSecurityGroupId" := JStr groupId ]};
     toEgressRuleJSON := {[ "destinationSecurityGroupId" := JStr groupId ]} |}.

Definition TcpPort (port : Z) (shown : string) : IPortRange :=
  {| port_canInlineRule := true;
     toRuleJSON := {[ "ipProtocol" := JStr "tcp";
                      "fromPort" := JNum port; "toPort" := JNum port ]};
     port_toString := shown |}.

Definition IcmpTypeAndCode (type code : Z) (shown : string) : IPortRange :=
  {| port_canInlineRule := true;
     toRuleJSON := {[ "ipProtocol" := JStr "icmp";
                      "fromPort" := JNum type; "toPort" := JNum code ]};
     port_toString := shown |}.

Definition AllConnections : IPortRange :=
  {| port_canInlineRule := true;
     toRuleJSON := {[ "ipProtocol" := JStr "-1";
                      "fromPort" := JNum (-1); "toPort" := JNum (-1) ]};
     port_toString := "ALL TRAFFIC" |}.

Definition deny_props : SecurityGroupProps :=
  {| props_groupName := None; props_description := None;
     props_vpcId := "vpc-1"; props_allowAllOutbound := Some false |}.

Definition allow_props : SecurityGroupProps :=
  {| props_groupName := None; props_description := None;
     props_vpcId := "vpc-1"; props_allowAllOutbound := None |}.

(** ** Imported security groups *)

Record SecurityGroupImportProps : Type := {
  import_securityGroupId : string
}.

(** [ImportedSecurityGroup]: the private [props] and the id read from
    them; [isg_path] is where the [Construct] constructor put it. *)
Record ImportedSecurityGroup : Type := {
  isg_path : string;
  isg_props : SecurityGroupImportProps;
  isg_securityGroupId : string
}.

Definition new_ImportedSecurityGroup (parentPath name : string)
    (props : SecurityGroupImportProps) : ImportedSecurityGroup :=
  {| isg_path := parentPath ++ "/" ++ name;
     isg_props := props;
     isg_securityGroupId := import_securityGroupId props |}.

(** [SecurityGroup.import(parent, id, props)] *)
Definition SecurityGroup_import (parentPath id : string)
    (props : SecurityGroupImportProps) : ImportedSecurityGroup :=
  new_ImportedSecurityGroup parentPath id props.

Definition ImportedSecurityGroup_export
    (this : ImportedSecurityGroup) : SecurityGroupImportProps :=
  isg_props this.

(** ** Imported topics *)

(** [TopicImportProps] is declared in topic-ref; [ImportedTopic] reads
    these two fields of it. *)
Record TopicImportProps : Type := {
  import_topicArn : string;
  import_topicName : string
}.

Record ImportedTopic : Type := {
  topic_path : string;
  topic_props : TopicImportProps;
  topicArn : string;
  topicName : string;
  autoCreatePolicy : bool
}.

Definition new_ImportedTopic (parentPath id : string)
    (props : TopicImportProps) : ImportedTopic :=
  {| topic_path := parentPath ++ "/" ++ id;
     topic_props := props;
     topicArn := import_topicArn props;
     topicName := import_topicName props;
     autoCreatePolicy := false |}.

(** [Topic.import(parent, name, props)] *)
Definition Topic_import (parentPath name : string)
    (props : TopicImportProps) : ImportedTopic :=
  new_ImportedTopic parentPath name props.

Definition ImportedTopic_export (this : ImportedTopic) : TopicImportProps :=
  topic_props this.

(** ** Notions used in the statements *)

(** The rule that an inline [addIngressRule] / [addEgressRule] call builds
    from its arguments. *)
Definition ingressCandidate (peer : ISecurityGroupRule)
    (connection : IPortRange) (description : option string) : JsObj :=
  inlineRule (toIngressRuleJSON peer) connection
    (default (defaultDescription peer connection) description).

Definition egressCandidate (peer : ISecurityGroupRule)
    (connection : IPortRange) (description : option string) : JsObj :=
  inlineRule (toEgressRuleJSON peer) connection
    (default (defaultDescription peer connection) description).

(** Some rule of the list is the bogus rule, as [removeNoTrafficRule]
    recognises it (description discarded). *)
Definition holds_no_traffic_rule (l : list JsObj) : bool :=
  existsb (λ r, egressRulesEqual r MATCH_NO_TRAFFIC) l.

(** The properties the two equality predicates compare. *)
Definition ingressKey (o : JsObj) : list JsVal :=
  prop o <$> ["cidrIp"; "cidrIpv6"; "fromPort"; "toPort"; "ipProtocol";
              "sourceSecurityGroupId"; "sourceSecurityGroupName";
              "sourceSecurityGroupOwnerId"].

Definition egressKey (o : JsObj) : list JsVal :=
  prop o <$> ["cidrIp"; "cidrIpv6"; "fromPort"; "toPort"; "ipProtocol";
              "destinationPrefixListId"; "destinationSecurityGroupId"].

Definition is_egress_call (c : Call) : bool :=
  match c with
  | AddEgressRule _ _ _ => true
  | AddIngressRule _ _ _ => false
  end.

(** Some [addEgressRule] call of the sequence returned (did not throw). *)
Fixpoint egress_returned (cs : list Call) (this : SecurityGroup) : bool :=
  match cs with
  | [] => false
  | c :: cs' =>
      match call c this with
      | (Normal _, this') => is_egress_call c || egress_returned cs' this'
      | (Throw _, this') => egress_returned cs' this'
      end
  end.

(** The call asks for an inline egress rule that the group would take for
    its own bogus rule. *)
Definition builds_no_traffic_rule (c : Call) : bool :=
  match c with
  | AddEgressRule p c d =>
      canInline p c && egressRulesEqual (egressCandidate p c d) MATCH_NO_TRAFFIC
  | AddIngressRule _ _ _ => false
  end.

(** A standalone egress rule resource exists under the group. *)
Definition has_egress_resource (this : SecurityGroup) : Prop :=
  ∃ id props, children this !! id = Some (CfnSecurityGroupEgress props).

(** The first element satisfying [f] taken out. *)
Fixpoint remove_first {A : Type} (f : A → bool) (l : list A) : list A :=
  match l with
  | [] => []
  | x :: l' => if f x then l' else x :: remove_first f l'
  end.

(** Every child whose id starts with "t" is a standalone egress rule. *)
Definition egress_ids_ok (this : SecurityGroup) : Prop :=
  ∀ rest r, children this !! String "t" rest = Some r →
            ∃ props, r = CfnSecurityGroupEgress props.

(** Until an [addEgressRule] call has returned, the egress list of a
    deny-by-default group is the bogus rule alone, or empty. *)
Definition before_first_return (this : SecurityGroup) : Prop :=
  directEgressRules this = [MATCH_NO_TRAFFIC] ∨ directEgressRules this = [].

(** The ingress rules differ pairwise in what [ingressRulesEqual] compares. *)
Definition ingress_distinct (this : SecurityGroup) : Prop :=
  NoDup (ingressKey <$> directIngressRules this).

(** A run of [addEgressRule] calls, given by their arguments. *)
Definition egress_calls
    (args : list (ISecurityGroupRule * IPortRange * option string)) : list Call :=
  (λ a, AddEgressRule a.1.1 a.1.2 a.2) <$> args.

(** A deny-by-default and an allow-all group, freshly constructed. *)
Definition fresh_deny : SecurityGroup := new_SecurityGroup "Stack" "SG" deny_props.
Definition fresh_allow : SecurityGroup := new_SecurityGroup "Stack" "SG" allow_props.

(** Sample peers, port ranges and calls. *)
Definition other_group : ISecurityGroupRule := SecurityGroupPeer "Stack/Other" "sg-2".
Definition internal_net : ISecurityGroupRule := CidrIPv4 "10.0.0.0/16".
Definition tcp80 : IPortRange := TcpPort 80 "80".
Definition tcp22 : IPortRange := TcpPort 22 "22".

(** A peer that cannot be inlined and whose unique id holds two slashes. *)
Definition slashed_peer : ISecurityGroupRule := SecurityGroupPeer "a/b/c" "sg-3".

(** An explicit rule with the fields of the bogus rule. *)
Definition unroutable : ISecurityGroupRule := CidrIPv4 "255.255.255.255/32".
Definition icmp_252_86 : IPortRange :=
  IcmpTypeAndCode 252 86 "ICMP Type 252 Code 86".

(** ** Pipeline artifacts (artifact.ts) *)

(** An [Artifact] is a construct under an action; [artifact_name] is its
    [name]. *)
Record Artifact : Type := {
  artifact_parentPath : string;
  artifact_name : string
}.

(** [ArtifactPath]: a file within an artifact. *)
Record ArtifactPath : Type := {
  artifact : Artifact;
  fileName : string
}.

(** [artifact.atPath(fileName)] *)
Definition atPath (this : Artifact) (fileName : string) : ArtifactPath :=
  {| artifact := this; fileName := fileName |}.

(** [get location()]: [`${this.artifact.name}::${this.fileName}`] *)
Definition location (this : ArtifactPath) : string :=
  artifact_name (artifact this) ++ "::" ++ fileName this.

Definition Artifact_toString (this : Artifact) : string := artifact_name this.

(** ** Further notions used in the statements *)

(** The properties that [ingressRulesEqual] and [egressRulesEqual] read. *)
Definition ingress_compared : list string :=
  ["cidrIp"; "cidrIpv6"; "fromPort"; "toPort"; "ipProtocol";
   "sourceSecurityGroupId"; "sourceSecurityGroupName";
   "sourceSecurityGroupOwnerId"].

Definition egress_compared : list string :=
  ["cidrIp"; "cidrIpv6"; "fromPort"; "toPort"; "ipProtocol";
   "destinationPrefixListId"; "destinationSecurityGroupId"].

(** The egress rules differ pairwise in what [egressRulesEqual] compares. *)
Definition egress_distinct (this : SecurityGroup) : Prop :=
  NoDup (egressKey <$> directEgressRules this).

(** The id under which the standalone paths register a rule. *)
Definition ingressResourceId (peer : ISecurityGroupRule)
    (connection : IPortRange) : string :=
  replace_slash ("from " ++ uniqueId peer ++ ":" ++ port_toString connection).

Definition egressResourceId (peer : ISecurityGroupRule)
    (connection : IPortRange) : string :=
  replace_slash ("to " ++ uniqueId peer ++ ":" ++ port_toString connection).

(** How many times the character occurs in the string. *)
Fixpoint count_char (x : ascii) (s : string) : nat :=
  match s with
  | EmptyString => 0%nat
  | String c s' => ((if Ascii.eqb c x then 1 else 0) + count_char x s')%nat
  end.

(** The id still holds a slash, so that [tryFindChild] takes it for a path
    into a child. *)
Definition keeps_slash (id : string) : bool :=
  negb (Nat.eqb (count_char "/" id) 0).

(** The properties object of the standalone resources:
    [{ groupId, ...peerJSON, ...connection.toRuleJSON(), description }]. *)
Definition resourceProps (groupId : string) (peerJSON : JsObj)
    (connection : IPortRange) (description : string) : JsObj :=
  <["description" := JStr description]>
    (spread (spread {["groupId" := JStr groupId]} peerJSON)
            (toRuleJSON connection)).
(** What the children of a group are: its own resource under "Resource",
    standalone ingress rules under ids that start with "from " and
    standalone egress rules under ids that start with "to ". *)
Definition child_ok (id : string) (r : CfnResource) : Prop :=
  (id = "Resource" ∧ ∃ g d v, r = CfnSecurityGroup g d v)
  ∨ (∃ rest props, id = "from " ++ rest ∧ r = CfnSecurityGroupIngress props)
  ∨ (∃ rest props, id = "to " ++ rest ∧ r = CfnSecurityGroupEgress props).

Definition children_ok (this : SecurityGroup) : Prop :=
  ∀ id r, children this !! id = Some r → child_ok id r.

(** A peer that is a prefix list, as far as the rule objects go. *)
Definition prefix_list_peer (id prefixListId : string) : ISecurityGroupRule :=
  {| peer_canInlineRule := true;
     uniqueId := id;
     toIngressRuleJSON := {[ "sourcePrefixListId" := JStr prefixListId ]};
     toEgressRuleJSON := {[ "destinationPrefixListId" := JStr prefixListId ]} |}.

(** * Properties *)

(** ** Arrays *)

Lemma findIndexFrom_gtb {A : Type} (f : A → bool) (l : list A) (i : Z) :
  0 ≤ i → (findIndexFrom f l i >? -1) = existsb f l.
Proof.
  revert i. induction l as [|x l IH]; intros i Hi; simpl; [done|].
  destruct (f x); simpl.
  - apply Z.gtb_lt. lia.
  - apply IH. lia.
Qed.

Lemma findIndex_gtb {A : Type} (f : A → bool) (l : list A) :
  (findIndex f l >? -1) = existsb f l.
Proof. apply findIndexFrom_gtb. lia. Qed.

Lemma findIndexFrom_shift {A : Type} (f : A → bool) (l : list A) (i : Z) :
  existsb f l = true → findIndexFrom f l i = i + findIndexFrom f l 0.
Proof.
  revert i. induction l as [|x l IH]; intros i H; simpl in *; [done|].
  destruct (f x); simpl in *; [lia|].
  rewrite (IH (i + 1) H), (IH (0 + 1) H). lia.
Qed.

Lemma findIndexFrom_nonneg {A : Type} (f : A → bool) (l : list A) (i : Z) :
  0 ≤ i → existsb f l = true → i ≤ findIndexFrom f l i.
Proof.
  revert i. induction l as [|x l IH]; intros i Hi H; simpl in *; [done|].
  destruct (f x); simpl in *; [lia|].
  specialize (IH (i + 1) ltac:(lia) H). lia.
Qed.

(** Splicing at the index that [findIndex] returns takes the first match
    out. *)
Lemma splice1_findIndex {A : Type} (f : A → bool) (l : list A) :
  existsb f l = true → splice1 (findIndex f l) l = remove_first f l.
Proof.
  unfold splice1, findIndex.
  induction l as [|x l IH]; intros H; simpl in *; [done|].
  destruct (f x); simpl in *; [done|].
  rewrite (findIndexFrom_shift f l (0 + 1) H).
  pose proof (findIndexFrom_nonneg f l 0 ltac:(lia) H) as Hge.
  replace (Z.to_nat (0 + 1 + findIndexFrom f l 0))
    with (S (Z.to_nat (findIndexFrom f l 0))) by lia.
  simpl. f_equal. by apply IH.
Qed.

Lemma remove_first_none {A : Type} (f : A → bool) (l : list A) :
  existsb f l = false → remove_first f l = l.
Proof.
  induction l as [|x l IH]; simpl; [done|].
  destruct (f x); simpl; [done|]. intros H. f_equal. by apply IH.
Qed.

(** ** Rule equality *)

Lemma ingressRulesEqual_key (a b : JsObj) :
  ingressRulesEqual a b = bool_decide (ingressKey a = ingressKey b).
Proof.
  unfold ingressRulesEqual, ingressKey, same, strict_eq. simpl.
  apply eq_true_iff_eq. rewrite !andb_true_iff, !bool_decide_eq_true.
  split.
  - intros [[[[[[[-> ->] ->] ->] ->] ->] ->] ->]. reflexivity.
  - intros H. by simplify_eq.
Qed.

Lemma egressRulesEqual_key (a b : JsObj) :
  egressRulesEqual a b = bool_decide (egressKey a = egressKey b).
Proof.
  unfold egressRulesEqual, egressKey, same, strict_eq. simpl.
  apply eq_true_iff_eq. rewrite !andb_true_iff, !bool_decide_eq_true.
  split.
  - intros [[[[[[-> ->] ->] ->] ->] ->] ->]. reflexivity.
  - intros H. by simplify_eq.
Qed.

(** The description takes no part in the comparison. *)
Lemma prop_inlineRule (j : JsObj) (c : IPortRange) (d : string) (k : string) :
  k ≠ "description" → prop (inlineRule j c d) k = prop (spread j (toRuleJSON c)) k.
Proof.
  intros Hk. unfold prop, inlineRule. by rewrite lookup_insert_ne.
Qed.

Lemma prop_inlineRule_description (j : JsObj) (c : IPortRange) (d : string) :
  prop (inlineRule j c d) "description" = JStr d.
Proof. unfold prop, inlineRule. by rewrite lookup_insert_eq. Qed.

Lemma ingressKey_inlineRule (j : JsObj) (c : IPortRange) (d1 d2 : string) :
  ingressKey (inlineRule j c d1) = ingressKey (inlineRule j c d2).
Proof. unfold ingressKey. simpl. by rewrite !prop_inlineRule. Qed.

Lemma egressKey_inlineRule (j : JsObj) (c : IPortRange) (d1 d2 : string) :
  egressKey (inlineRule j c d1) = egressKey (inlineRule j c d2).
Proof. unfold egressKey. simpl. by rewrite !prop_inlineRule. Qed.

(** ** What each method does to [this] *)

Ltac unfold_methods :=
  unfold addIngressRule, addEgressRule,
    SecurityGroupBase_addIngressRule, SecurityGroupBase_addEgressRule,
    addDirectIngressRule, addDirectEgressRule, hasIngressRule, hasEgressRule,
    removeNoTrafficRule, addDefaultEgressRule, newChild, tryFindChild,
    set_children, set_directIngressRules, set_directEgressRules,
    this_, throw, mbind, M_bind, mret, M_ret in *;
  simpl in *.

Lemma with_directEgressRules_id (this : SecurityGroup) :
  with_directEgressRules (directEgressRules this) this = this.
Proof. by destruct this. Qed.

Lemma removeNoTrafficRule_run (this : SecurityGroup) :
  removeNoTrafficRule this =
    (Normal (),
     with_directEgressRules
       (remove_first (λ r, egressRulesEqual r MATCH_NO_TRAFFIC)
                     (directEgressRules this)) this).
Proof.
  unfold_methods. rewrite findIndex_gtb.
  destruct (existsb _ _) eqn:E.
  - by rewrite splice1_findIndex.
  - by rewrite remove_first_none, with_directEgressRules_id.
Qed.

Lemma addDirectIngressRule_run (rule : JsObj) (this : SecurityGroup) :
  addDirectIngressRule rule this =
    (Normal (),
     if existsb (λ r, ingressRulesEqual r rule) (directIngressRules this)
     then this
     else with_directIngressRules (directIngressRules this ++ [rule]) this).
Proof. unfold_methods. rewrite findIndex_gtb. by destruct (existsb _ _). Qed.

Lemma addDirectEgressRule_run (rule : JsObj) (this : SecurityGroup) :
  addDirectEgressRule rule this =
    (Normal (),
     if existsb (λ r, egressRulesEqual r rule) (directEgressRules this)
     then this
     else with_directEgressRules (directEgressRules this ++ [rule]) this).
Proof. unfold_methods. rewrite findIndex_gtb. by destruct (existsb _ _). Qed.

Lemma addIngressRule_inline p c d (this : SecurityGroup) :
  canInline p c = true →
  addIngressRule p c d this = addDirectIngressRule (ingressCandidate p c d) this.
Proof.
  unfold canInline, addIngressRule. intros H.
  by destruct (negb (peer_canInlineRule p) || negb (port_canInlineRule c)).
Qed.

Lemma addIngressRule_standalone p c d (this : SecurityGroup) :
  canInline p c = false →
  addIngressRule p c d this = SecurityGroupBase_addIngressRule p c d this.
Proof.
  unfold canInline, addIngressRule. intros H.
  by destruct (negb (peer_canInlineRule p) || negb (port_canInlineRule c)).
Qed.

Lemma addEgressRule_allow p c d (this : SecurityGroup) :
  allowAllOutbound this = true → addEgressRule p c d this = (Normal (), this).
Proof. intros H. unfold_methods. by rewrite H. Qed.

(** In deny-by-default mode the bogus rule goes first, whatever follows. *)
Lemma addEgressRule_deny p c d (this : SecurityGroup) :
  allowAllOutbound this = false →
  addEgressRule p c d this =
    let this' := (removeNoTrafficRule this).2 in
    if canInline p c then
      if isAllTrafficRule (egressCandidate p c d)
      then (Throw all_traffic_message, this')
      else addDirectEgressRule (egressCandidate p c d) this'
    else SecurityGroupBase_addEgressRule p c d this'.
Proof.
  intros H. unfold addEgressRule, canInline.
  unfold mbind at 1 2, M_bind, this_. rewrite H.
  rewrite removeNoTrafficRule_run. simpl.
  destruct (negb (peer_canInlineRule p) || negb (port_canInlineRule c)); simpl;
    [done|].
  fold (egressCandidate p c d). by destruct (isAllTrafficRule _).
Qed.

Lemma replace_slash_to (s : string) :
  replace_slash ("to " ++ s) = String "t" (String "o" (String " " (replace_slash s))).
Proof. reflexivity. Qed.

Lemma replace_slash_from (s : string) :
  replace_slash ("from " ++ s)
  = String "f" (String "r" (String "o" (String "m" (String " " (replace_slash s))))).
Proof. reflexivity. Qed.

(** *** Looking a child up *)

Lemma split_slash_cons (s : string) : ∃ part parts, split_slash s = part :: parts.
Proof.
  destruct s as [|c s]; simpl; [by eexists _, _|].
  destruct (Ascii.eqb c "/"); [by eexists _, _|].
  destruct (split_slash s); by eexists _, _.
Qed.

Lemma split_slash_none (s : string) :
  count_char "/" s = 0%nat → split_slash s = [s].
Proof.
  induction s as [|c s IH]; simpl; [done|].
  destruct (Ascii.eqb c "/"); [done|]. simpl. intros H. by rewrite IH.
Qed.

Lemma split_slash_some (s : string) :
  count_char "/" s ≠ 0%nat → ∃ a b parts, split_slash s = a :: b :: parts.
Proof.
  induction s as [|c s IH]; simpl; [done|].
  destruct (Ascii.eqb c "/"); simpl.
  - intros _. destruct (split_slash_cons s) as (b & parts & ->).
    by eexists _, _, _.
  - intros H. destruct (IH H) as (a & b & parts & ->). by eexists _, _, _.
Qed.

Lemma descend_none (parts : list string) :
  foldl (λ curr part, r ← curr; resource_children r !! part)
        (@None CfnResource) parts = None.
Proof. induction parts as [|x parts IH]; simpl; [done|]. apply IH. Qed.

(** An id without a slash is looked up as it is; an id with a slash is
    never found, the children being leaves. *)
Lemma tryFindChild_spec (this : SecurityGroup) (id : string) :
  tryFindChild this id = if keeps_slash id then None else children this !! id.
Proof.
  unfold tryFindChild, keeps_slash.
  destruct (Nat.eqb_spec (count_char "/" id) 0) as [H|H]; simpl.
  - by rewrite split_slash_none.
  - destruct (split_slash_some id H) as (a & b & parts & ->). simpl.
    replace (children this !! a ≫= λ r, resource_children r !! b)
      with (@None CfnResource); [apply descend_none|].
    by destruct (children this !! a).
Qed.

(** *** The standalone paths, in full *)

Lemma SecurityGroupBase_addIngressRule_eq p c d (this : SecurityGroup) :
  SecurityGroupBase_addIngressRule p c d this =
    match children this !! ingressResourceId p c with
    | Some _ =>
        (if keeps_slash (ingressResourceId p c)
         then Throw (duplicate_construct_message (ingressResourceId p c) this)
         else Normal (),
         this)
    | None =>
        (Normal (),
         with_children
           (<[ingressResourceId p c :=
                CfnSecurityGroupIngress
                  (resourceProps (securityGroupId this) (toIngressRuleJSON p) c
                     (default ("from " ++ uniqueId p ++ ":" ++ port_toString c) d))]>
              (children this)) this)
    end.
Proof.
  unfold SecurityGroupBase_addIngressRule, ingressResourceId, resourceProps.
  cbv zeta.
  generalize (replace_slash ("from " ++ uniqueId p ++ ":" ++ port_toString c)).
  generalize (default ("from " ++ uniqueId p ++ ":" ++ port_toString c) d).
  intros descr id.
  unfold mbind at 1, M_bind, this_. rewrite tryFindChild_spec.
  unfold newChild, mbind, M_bind, this_, throw, set_children, mret, M_ret.
  destruct (keeps_slash id); destruct (children this !! id) eqn:E; simpl;
    rewrite ?E; done.
Qed.

Lemma SecurityGroupBase_addEgressRule_eq p c d (this : SecurityGroup) :
  SecurityGroupBase_addEgressRule p c d this =
    match children this !! egressResourceId p c with
    | Some _ =>
        (if keeps_slash (egressResourceId p c)
         then Throw (duplicate_construct_message (egressResourceId p c) this)
         else Normal (),
         this)
    | None =>
        (Normal (),
         with_children
           (<[egressResourceId p c :=
                CfnSecurityGroupEgress
                  (resourceProps (securityGroupId this) (toEgressRuleJSON p) c
                     (default ("to " ++ uniqueId p ++ ":" ++ port_toString c) d))]>
              (children this)) this)
    end.
Proof.
  unfold SecurityGroupBase_addEgressRule, egressResourceId, resourceProps.
  cbv zeta.
  generalize (replace_slash ("to " ++ uniqueId p ++ ":" ++ port_toString c)).
  generalize (default ("to " ++ uniqueId p ++ ":" ++ port_toString c) d).
  intros descr id.
  unfold mbind at 1, M_bind, this_. rewrite tryFindChild_spec.
  unfold newChild, mbind, M_bind, this_, throw, set_children, mret, M_ret.
  destruct (keeps_slash id); destruct (children this !! id) eqn:E; simpl;
    rewrite ?E; done.
Qed.

Lemma with_children_id (this : SecurityGroup) :
  with_children (children this) this = this.
Proof. by destruct this. Qed.

Lemma SecurityGroupBase_addIngressRule_run p c d (this : SecurityGroup) :
  ∃ r kids, SecurityGroupBase_addIngressRule p c d this
              = (r, with_children kids this)
    ∧ ∀ k x, children this !! k = Some x → kids !! k = Some x.
Proof.
  rewrite SecurityGroupBase_addIngressRule_eq.
  destruct (children this !! ingressResourceId p c) eqn:E.
  - eexists _, (children this). by rewrite with_children_id.
  - eexists _, _. split; [done|]. intros k x Hk.
    rewrite lookup_insert_ne; [done|]. intros <-. congruence.
Qed.

Lemma SecurityGroupBase_addIngressRule_kids p c d (this : SecurityGroup) :
  ∀ k r, children (SecurityGroupBase_addIngressRule p c d this).2 !! k = Some r →
    children this !! k = Some r ∨ ∃ rest, k = String "f" rest.
Proof.
  intros k r. rewrite SecurityGroupBase_addIngressRule_eq.
  destruct (children this !! ingressResourceId p c) eqn:E; simpl.
  - by left.
  - rewrite lookup_insert. case_decide as Hk; [|by left]. right.
    rewrite <- Hk. eexists. apply replace_slash_from.
Qed.

Lemma SecurityGroupBase_addEgressRule_run p c d (this : SecurityGroup) :
  ∃ r kids, SecurityGroupBase_addEgressRule p c d this
              = (r, with_children kids this)
    ∧ (∀ k x, children this !! k = Some x → kids !! k = Some x)
    ∧ (∀ k x, kids !! k = Some x →
         children this !! k = Some x
         ∨ ∃ rest props, k = String "t" rest ∧ x = CfnSecurityGroupEgress props)
    ∧ (∃ rest x, kids !! String "t" rest = Some x).
Proof.
  rewrite SecurityGroupBase_addEgressRule_eq.
  assert (Hid : ∃ rest, egressResourceId p c = String "t" rest).
  { unfold egressResourceId. rewrite replace_slash_to. by eexists. }
  destruct Hid as [rest Hid].
  destruct (children this !! egressResourceId p c) eqn:E.
  - eexists _, (children this). rewrite with_children_id.
    split; [done|]. split; [done|]. split; [by left|].
    rewrite Hid in E. eauto.
  - eexists _, _. split; [done|]. split; [|split].
    + intros k x Hk. rewrite lookup_insert_ne; [done|]. intros <-. congruence.
    + intros k x. rewrite lookup_insert. case_decide as Hk; [|by left].
      intros [= <-]. right. subst k. by eexists _, _.
    + exists rest. eexists. rewrite <- Hid. apply lookup_insert_eq.
Qed.

(** [addIngressRule] touches neither the egress rules nor the mode, whether
    it returns or throws. *)
Lemma addIngressRule_run p c d (this : SecurityGroup) :
  ∃ r this', addIngressRule p c d this = (r, this')
    ∧ directEgressRules this' = directEgressRules this
    ∧ allowAllOutbound this' = allowAllOutbound this.
Proof.
  destruct (canInline p c) eqn:E.
  - rewrite addIngressRule_inline, addDirectIngressRule_run by done.
    eexists _, _. split; [done|]. by destruct (existsb _ _).
  - rewrite addIngressRule_standalone by done.
    destruct (SecurityGroupBase_addIngressRule_run p c d this)
      as (r & kids & -> & _).
    by eexists _, _.
Qed.

(** [addEgressRule] touches neither the ingress rules nor the mode, whether
    it returns or throws. *)
Lemma addEgressRule_frame p c d (this : SecurityGroup) :
  directIngressRules (addEgressRule p c d this).2 = directIngressRules this
  ∧ allowAllOutbound (addEgressRule p c d this).2 = allowAllOutbound this.
Proof.
  destruct (allowAllOutbound this) eqn:Hm.
  - by rewrite addEgressRule_allow.
  - rewrite addEgressRule_deny by done. cbv zeta.
    rewrite removeNoTrafficRule_run. simpl.
    destruct (canInline p c).
    + destruct (isAllTrafficRule _); [done|].
      rewrite addDirectEgressRule_run. by destruct (existsb _ _).
    + destruct (SecurityGroupBase_addEgressRule_run p c d
        (with_directEgressRules
           (remove_first (λ r, egressRulesEqual r MATCH_NO_TRAFFIC)
              (directEgressRules this)) this)) as (r0 & kids & -> & _).
      done.
Qed.

Lemma call_allowAllOutbound (c : Call) (this : SecurityGroup) :
  allowAllOutbound (call c this).2 = allowAllOutbound this.
Proof.
  destruct c as [p c d|p c d]; simpl.
  - by destruct (addIngressRule_run p c d this) as (r0 & this' & -> & _ & ?).
  - apply addEgressRule_frame.
Qed.

Lemma run_allowAllOutbound (cs : list Call) (this : SecurityGroup) :
  allowAllOutbound (run cs this) = allowAllOutbound this.
Proof.
  revert this. induction cs as [|c cs IH]; intros this; simpl; [done|].
  by rewrite IH, call_allowAllOutbound.
Qed.

(** The constructor leaves the default egress rule of the mode and nothing
    else. *)
Lemma new_SecurityGroup_allow parentPath name props :
  props_allowAllOutbound props ≠ Some false →
  allowAllOutbound (new_SecurityGroup parentPath name props) = true
  ∧ directEgressRules (new_SecurityGroup parentPath name props) = [ALLOW_ALL_RULE].
Proof.
  intros H. unfold new_SecurityGroup. unfold_methods.
  by destruct (props_allowAllOutbound props) as [[]|].
Qed.

Lemma new_SecurityGroup_deny parentPath name props :
  props_allowAllOutbound props = Some false →
  allowAllOutbound (new_SecurityGroup parentPath name props) = false
  ∧ directEgressRules (new_SecurityGroup parentPath name props) = [MATCH_NO_TRAFFIC].
Proof. intros H. unfold new_SecurityGroup. unfold_methods. by rewrite H. Qed.

Lemma new_SecurityGroup_fresh parentPath name props :
  directIngressRules (new_SecurityGroup parentPath name props) = []
  ∧ ∃ r, children (new_SecurityGroup parentPath name props) = {[ "Resource" := r ]}.
Proof.
  unfold new_SecurityGroup. unfold_methods.
  destruct (props_allowAllOutbound props) as [[]|]; simpl; eauto.
Qed.

(** ** Children of the group *)

Lemma call_children_mono (c : Call) (this : SecurityGroup) k r :
  children this !! k = Some r → children (call c this).2 !! k = Some r.
Proof.
  destruct c as [p c d|p c d]; simpl; intros Hk.
  - destruct (canInline p c) eqn:E.
    + rewrite addIngressRule_inline, addDirectIngressRule_run by done.
      by destruct (existsb _ _).
    + rewrite addIngressRule_standalone by done.
      destruct (SecurityGroupBase_addIngressRule_run p c d this)
        as (r0 & kids & -> & Hkids). by apply Hkids.
  - destruct (allowAllOutbound this) eqn:Hm.
    { by rewrite addEgressRule_allow. }
    rewrite addEgressRule_deny by done. cbv zeta.
    rewrite removeNoTrafficRule_run. simpl.
    destruct (canInline p c).
    + destruct (isAllTrafficRule _); [done|].
      rewrite addDirectEgressRule_run. by destruct (existsb _ _).
    + match goal with |- context [SecurityGroupBase_addEgressRule p c d ?s] =>
        destruct (SecurityGroupBase_addEgressRule_run p c d s)
          as (r0 & kids & -> & Hkids & _) end.
      by apply Hkids.
Qed.

Lemma call_egress_ids_ok (c : Call) (this : SecurityGroup) :
  egress_ids_ok this → egress_ids_ok (call c this).2.
Proof.
  intros Hok rest r. destruct c as [p c d|p c d]; simpl.
  - destruct (canInline p c) eqn:E.
    + rewrite addIngressRule_inline, addDirectIngressRule_run by done.
      destruct (existsb _ _); apply Hok.
    + rewrite addIngressRule_standalone by done. intros Hk.
      apply SecurityGroupBase_addIngressRule_kids in Hk as [Hk|[? [=]]].
      by eapply Hok.
  - destruct (allowAllOutbound this) eqn:Hm.
    { rewrite addEgressRule_allow by done. apply Hok. }
    rewrite addEgressRule_deny by done. cbv zeta.
    rewrite removeNoTrafficRule_run. simpl.
    destruct (canInline p c).
    + destruct (isAllTrafficRule _); [apply Hok|].
      rewrite addDirectEgressRule_run. destruct (existsb _ _); apply Hok.
    + match goal with |- context [SecurityGroupBase_addEgressRule p c d ?s] =>
        destruct (SecurityGroupBase_addEgressRule_run p c d s)
          as (r0 & kids & -> & _ & Hkids & _) end.
      simpl. intros Hk. apply Hkids in Hk as [Hk|(? & props & _ & ->)].
      * by eapply Hok.
      * by eexists.
Qed.

Lemma new_SecurityGroup_egress_ids_ok parentPath name props :
  egress_ids_ok (new_SecurityGroup parentPath name props).
Proof.
  destruct (new_SecurityGroup_fresh parentPath name props) as [_ [r0 Hc]].
  intros rest r. rewrite Hc. rewrite lookup_singleton_ne; done.
Qed.

Lemma run_egress_ids_ok (cs : list Call) (this : SecurityGroup) :
  egress_ids_ok this → egress_ids_ok (run cs this).
Proof.
  revert this. induction cs as [|c cs IH]; intros this Hok; simpl; [done|].
  by apply IH, call_egress_ids_ok.
Qed.

(** In deny-by-default mode a call that cannot be inlined leaves a
    standalone egress rule under the group. *)
Lemma addEgressRule_standalone_resource p c d (this : SecurityGroup) :
  allowAllOutbound this = false →
  egress_ids_ok this →
  canInline p c = false →
  has_egress_resource (addEgressRule p c d this).2.
Proof.
  intros Hm Hok Hi.
  pose proof (call_egress_ids_ok (AddEgressRule p c d) this Hok) as Hok'.
  simpl in Hok'. revert Hok'.
  rewrite addEgressRule_deny by done. cbv zeta.
  rewrite removeNoTrafficRule_run, Hi. simpl.
  match goal with |- context [SecurityGroupBase_addEgressRule p c d ?s] =>
    destruct (SecurityGroupBase_addEgressRule_run p c d s)
      as (r0 & kids & -> & _ & _ & rest & r & Hr) end.
  simpl. intros Hok'. destruct (Hok' rest r Hr) as [props ->].
  by exists (String "t" rest), props.
Qed.

(** ** The egress list before and after the first returning call *)

Lemma before_first_return_removed (this : SecurityGroup) :
  before_first_return this →
  remove_first (λ r, egressRulesEqual r MATCH_NO_TRAFFIC) (directEgressRules this)
  = [].
Proof. by intros [-> | ->]. Qed.

Lemma holds_no_traffic_rule_elem (l : list JsObj) :
  holds_no_traffic_rule l = false → MATCH_NO_TRAFFIC ∉ l.
Proof.
  unfold holds_no_traffic_rule. intros H Hin.
  apply list_elem_of_In in Hin.
  assert (existsb (λ r, egressRulesEqual r MATCH_NO_TRAFFIC) l = true); [|congruence].
  apply existsb_exists. exists MATCH_NO_TRAFFIC. split; [done|].
  rewrite egressRulesEqual_key. by apply bool_decide_eq_true.
Qed.

(** The egress list after an [addEgressRule] call that returns, made in
    deny-by-default mode before any other has returned. *)
Lemma addEgressRule_first_return p c d (this : SecurityGroup) :
  allowAllOutbound this = false →
  before_first_return this →
  succeeds (addEgressRule p c d this) →
  directEgressRules (addEgressRule p c d this).2
  = if canInline p c then [egressCandidate p c d] else [].
Proof.
  intros Hm Hk [[] Hs]. revert Hs.
  rewrite addEgressRule_deny by done. cbv zeta.
  rewrite removeNoTrafficRule_run, before_first_return_removed by done. simpl.
  destruct (canInline p c).
  - destruct (isAllTrafficRule _); [done|].
    by rewrite addDirectEgressRule_run.
  - match goal with |- context [SecurityGroupBase_addEgressRule p c d ?s] =>
      destruct (SecurityGroupBase_addEgressRule_run p c d s)
        as (r0 & kids & -> & _) end.
    done.
Qed.

Lemma addEgressRule_throw_before_first_return p c d (this : SecurityGroup) :
  allowAllOutbound this = false →
  before_first_return this →
  raises (addEgressRule p c d this) →
  before_first_return (addEgressRule p c d this).2.
Proof.
  intros Hm Hk [m Hs]. revert Hs.
  rewrite addEgressRule_deny by done. cbv zeta.
  rewrite removeNoTrafficRule_run, before_first_return_removed by done. simpl.
  destruct (canInline p c).
  - destruct (isAllTrafficRule _); [by right|].
    by rewrite addDirectEgressRule_run.
  - match goal with |- context [SecurityGroupBase_addEgressRule p c d ?s] =>
      destruct (SecurityGroupBase_addEgressRule_run p c d s)
        as (r0 & kids & -> & _) end.
    intros _. by right.
Qed.

Lemma run_before_first_return (cs : list Call) (this : SecurityGroup) :
  allowAllOutbound this = false →
  before_first_return this →
  egress_returned cs this = false →
  before_first_return (run cs this).
Proof.
  revert this. induction cs as [|c cs IH]; intros this Hm Hk Hr; simpl in *; [done|].
  pose proof (call_allowAllOutbound c this) as Hm'. rewrite Hm in Hm'.
  destruct c as [p c d|p c d]; simpl in *.
  - destruct (addIngressRule_run p c d this) as (r0 & this' & Hrun & Hl & _).
    rewrite Hrun in *. simpl in *.
    assert (egress_returned cs this' = false) by (by destruct r0).
    apply IH; [done| |done].
    unfold before_first_return. by rewrite Hl.
  - pose proof (addEgressRule_throw_before_first_return p c d this Hm Hk) as Ht.
    destruct (addEgressRule p c d this) as [[[]|m] this'] eqn:E; simpl in *;
      [done|].
    apply IH; [done| |done]. apply Ht. by exists m.
Qed.

(** Once no rule of the list is taken for the bogus rule, none will be,
    unless a call asks for such a rule itself. *)
Lemma call_holds_no_traffic_rule (c : Call) (this : SecurityGroup) :
  allowAllOutbound this = false →
  builds_no_traffic_rule c = false →
  holds_no_traffic_rule (directEgressRules this) = false →
  holds_no_traffic_rule (directEgressRules (call c this).2) = false.
Proof.
  intros Hm Hb Hh. destruct c as [p c d|p c d]; simpl in *.
  - destruct (addIngressRule_run p c d this) as (r0 & this' & Hrun & Hl & _).
    rewrite Hrun. simpl. by rewrite Hl.
  - rewrite addEgressRule_deny by done. cbv zeta.
    rewrite removeNoTrafficRule_run, remove_first_none by done.
    rewrite with_directEgressRules_id.
    destruct (canInline p c); simpl in *.
    + destruct (isAllTrafficRule _); [done|].
      rewrite addDirectEgressRule_run. destruct (existsb _ _); [done|].
      simpl. unfold holds_no_traffic_rule in *.
      rewrite existsb_app, Hh. simpl. by rewrite Hb.
    + by destruct (SecurityGroupBase_addEgressRule_run p c d this)
        as (r0 & kids & -> & _).
Qed.

Lemma run_holds_no_traffic_rule (cs : list Call) (this : SecurityGroup) :
  allowAllOutbound this = false →
  existsb builds_no_traffic_rule cs = false →
  holds_no_traffic_rule (directEgressRules this) = false →
  holds_no_traffic_rule (directEgressRules (run cs this)) = false.
Proof.
  revert this. induction cs as [|c cs IH]; intros this Hm Hb Hh; simpl in *;
    [done|].
  apply orb_false_iff in Hb as [Hc Hcs].
  apply IH; [by rewrite call_allowAllOutbound|done|].
  by apply call_holds_no_traffic_rule.
Qed.

(** ** addEgressRule: when it throws *)

Lemma addEgressRule_all_traffic p c d (this : SecurityGroup) :
  allowAllOutbound this = false →
  canInline p c = true →
  isAllTrafficRule (egressCandidate p c d) = true →
  addEgressRule p c d this =
    (Throw all_traffic_message,
     with_directEgressRules
       (remove_first (λ r, egressRulesEqual r MATCH_NO_TRAFFIC)
                     (directEgressRules this)) this).
Proof.
  intros Hm Hi Ha. rewrite addEgressRule_deny by done. cbv zeta.
  by rewrite Hi, Ha, removeNoTrafficRule_run.
Qed.

(** C1.  On a freshly constructed deny-by-default group, whose egress list is
    [MATCH_NO_TRAFFIC], [addEgressRule(new AnyIPv4(), new AllConnections())]
    throws the "all traffic" error, but only after [removeNoTrafficRule] has
    run: the egress list is empty afterwards, the bogus rule is gone and no
    rule has taken its place. *)
Theorem addEgressRule_all_traffic_throws_after_removal :
  directEgressRules fresh_deny = [MATCH_NO_TRAFFIC]
  ∧ (addEgressRule AnyIPv4 AllConnections None fresh_deny).1
      = Throw all_traffic_message
  ∧ directEgressRules (addEgressRule AnyIPv4 AllConnections None fresh_deny).2
      = [].
Proof. repeat split; reflexivity. Qed.

(** C2.  A call that is not an all-traffic call throws: on a fresh
    deny-by-default group, [addEgressRule] with a peer that cannot be inlined
    and whose unique id is "a/b/c" returns and registers its rule under the
    id "to a_b/c:22", only the first slash having been replaced; the same
    call made again throws.  [tryFindChild] takes the id for a path and does
    not find the child, so the duplicate is not skipped and the constructor
    of the resource meets the name that is taken. *)
Theorem addEgressRule_duplicate_id_throws :
  allowAllOutbound fresh_deny = false
  ∧ canInline slashed_peer tcp22 = false
  ∧ isAllTrafficRule (egressCandidate slashed_peer tcp22 None) = false
  ∧ (addEgressRule slashed_peer tcp22 None fresh_deny).1 = Normal ()
  ∧ egressResourceId slashed_peer tcp22 = "to a_b/c:22"
  ∧ (addEgressRule slashed_peer tcp22 None
       (addEgressRule slashed_peer tcp22 None fresh_deny).2).1
    = Throw (duplicate_construct_message "to a_b/c:22" fresh_deny).
Proof. repeat split; reflexivity. Qed.

(** ** Allow-all-outbound mode *)

(** C4.  For a group constructed with allowAllOutbound true (or left at its
    default, which is true) and any finite sequence of [addEgressRule] calls:
    none of the calls throws, the group after them is the group as
    constructed, its egress list is the single rule [ALLOW_ALL_RULE], and one
    more [addEgressRule] call again returns and changes nothing. *)
Theorem allow_all_outbound_addEgressRule_noop parentPath name props args :
  props_allowAllOutbound props ≠ Some false →
  let this := new_SecurityGroup parentPath name props in
  run (egress_calls args) this = this
  ∧ all_return (egress_calls args) this = true
  ∧ directEgressRules (run (egress_calls args) this) = [ALLOW_ALL_RULE]
  ∧ ∀ p c d, addEgressRule p c d (run (egress_calls args) this)
             = (Normal (), run (egress_calls args) this).
Proof.
  intros H this.
  destruct (new_SecurityGroup_allow parentPath name props H) as [Hm Hl].
  fold this in Hm, Hl.
  assert (Hrun : run (egress_calls args) this = this
                 ∧ all_return (egress_calls args) this = true).
  { induction args as [|[[p c] d] args IH]; simpl; [done|].
    by rewrite addEgressRule_allow. }
  destruct Hrun as [-> ->]. repeat split; [done|].
  intros p c d. by apply addEgressRule_allow.
Qed.

Lemma allow_all_outbound_addEgressRule_noop_witness :
  props_allowAllOutbound allow_props ≠ Some false
  ∧ directEgressRules
      (run (egress_calls [(AnyIPv4, TcpPort 443 "443", None);
                          (CidrIPv4 "10.0.0.0/16", TcpPort 80 "80", Some "web")])
           fresh_allow)
    = [ALLOW_ALL_RULE].
Proof.
  split; [discriminate|].
  apply (allow_all_outbound_addEgressRule_noop "Stack" "SG" allow_props
           [(AnyIPv4, TcpPort 443 "443", None);
            (CidrIPv4 "10.0.0.0/16", TcpPort 80 "80", Some "web")]).
  discriminate.
Defined.

Lemma run_allow_egress (cs : list Call) (this : SecurityGroup) :
  allowAllOutbound this = true →
  directEgressRules (run cs this) = directEgressRules this.
Proof.
  revert this. induction cs as [|c cs IH]; intros this Hm; simpl; [done|].
  rewrite IH by (by rewrite call_allowAllOutbound).
  destruct c as [p c d|p c d]; simpl.
  - by destruct (addIngressRule_run p c d this) as (r0 & this' & -> & ? & _).
  - by rewrite addEgressRule_allow.
Qed.

Lemma run_ingress_only_egress (cs : list Call) (this : SecurityGroup) :
  existsb is_egress_call cs = false →
  directEgressRules (run cs this) = directEgressRules this.
Proof.
  revert this. induction cs as [|c cs IH]; intros this H; simpl in *; [done|].
  apply orb_false_iff in H as [Hc Hcs]. rewrite IH by done.
  destruct c as [p c d|p c d]; [|done]. simpl.
  by destruct (addIngressRule_run p c d this) as (r0 & this' & -> & ? & _).
Qed.

Lemma run_after_first_return (cs : list Call) (this : SecurityGroup) :
  allowAllOutbound this = false →
  before_first_return this →
  existsb builds_no_traffic_rule cs = false →
  egress_returned cs this = true →
  holds_no_traffic_rule (directEgressRules (run cs this)) = false.
Proof.
  revert this. induction cs as [|c cs IH]; intros this Hm Hk Hb Hr; simpl in *;
    [done|].
  apply orb_false_iff in Hb as [Hc Hcs].
  pose proof (call_allowAllOutbound c this) as Hm'. rewrite Hm in Hm'.
  destruct c as [p c d|p c d]; simpl in *.
  - destruct (addIngressRule_run p c d this) as (r0 & this' & Hrun & Hl & _).
    rewrite Hrun in *. simpl in *.
    assert (egress_returned cs this' = true) by (by destruct r0).
    apply IH; try done.
    unfold before_first_return. by rewrite Hl.
  - pose proof (addEgressRule_throw_before_first_return p c d this Hm Hk) as Ht.
    pose proof (addEgressRule_first_return p c d this Hm Hk) as Hf.
    destruct (addEgressRule p c d this) as [[[]|m] this'] eqn:E; simpl in *.
    + apply run_holds_no_traffic_rule; try done.
      rewrite Hf by (by exists ()).
      destruct (canInline p c); simpl in *; [|done]. by rewrite Hc.
    + apply IH; try done. apply Ht. by exists m.
Qed.

(** ** Deny-by-default mode *)

(** C3, as the code has it.  A group constructed with allowAllOutbound false
    starts with the egress list [MATCH_NO_TRAFFIC].  After the first
    [addEgressRule] call that returns (any [addIngressRule] calls and
    throwing [addEgressRule] calls may come before it), the egress list is
    the rule built from that call alone when its peer and connection can
    both be inlined, and empty when one of them cannot (the rule is then a
    standalone resource).  The bogus rule is absent afterwards, unless the
    rule the call built is itself one the group takes for it. *)
Theorem first_returning_addEgressRule parentPath name props cs p c d :
  props_allowAllOutbound props = Some false →
  let this := new_SecurityGroup parentPath name props in
  let after := (addEgressRule p c d (run cs this)).2 in
  directEgressRules this = [MATCH_NO_TRAFFIC]
  ∧ (egress_returned cs this = false →
     succeeds (addEgressRule p c d (run cs this)) →
     directEgressRules after
       = (if canInline p c then [egressCandidate p c d] else [])
     ∧ (canInline p c = false → has_egress_resource after)
     ∧ (builds_no_traffic_rule (AddEgressRule p c d) = false →
        holds_no_traffic_rule (directEgressRules after) = false
        ∧ MATCH_NO_TRAFFIC ∉ directEgressRules after)).
Proof.
  intros H this after.
  destruct (new_SecurityGroup_deny parentPath name props H) as [Hm Hl].
  fold this in Hm, Hl. split; [done|]. intros Hr Hs.
  assert (Hk : before_first_return (run cs this)).
  { apply run_before_first_return; try done. by left. }
  assert (Hafter : directEgressRules after
                   = if canInline p c then [egressCandidate p c d] else []).
  { apply addEgressRule_first_return; try done. by rewrite run_allowAllOutbound. }
  split; [done|]. split.
  { intros Hi. apply addEgressRule_standalone_resource; [|  |done].
    - by rewrite run_allowAllOutbound.
    - apply run_egress_ids_ok, new_SecurityGroup_egress_ids_ok. }
  intros Hb.
  assert (holds_no_traffic_rule (directEgressRules after) = false).
  { rewrite Hafter. simpl in Hb. destruct (canInline p c); simpl in *; [|done].
    by rewrite Hb. }
  split; [done|]. by apply holds_no_traffic_rule_elem.
Qed.

Lemma first_returning_addEgressRule_witness :
  directEgressRules
    (addEgressRule internal_net tcp80 None
       (run [AddEgressRule AnyIPv4 AllConnections None;
             AddIngressRule AnyIPv4 tcp22 (Some "ssh")] fresh_deny)).2
  = [egressCandidate internal_net tcp80 None]
  ∧ MATCH_NO_TRAFFIC ∉
      directEgressRules
        (addEgressRule internal_net tcp80 None
           (run [AddEgressRule AnyIPv4 AllConnections None;
                 AddIngressRule AnyIPv4 tcp22 (Some "ssh")] fresh_deny)).2.
Proof.
  destruct (first_returning_addEgressRule "Stack" "SG" deny_props
              [AddEgressRule AnyIPv4 AllConnections None;
               AddIngressRule AnyIPv4 tcp22 (Some "ssh")]
              internal_net tcp80 None eq_refl) as [_ H].
  destruct (H eq_refl (ex_intro _ () eq_refl)) as (Hl & _ & Hs).
  destruct (Hs eq_refl) as [_ Hn].
  split; [exact Hl|exact Hn].
Defined.

(** C3 fails as stated: on a fresh deny-by-default group,
    [addEgressRule(otherGroup, tcp 80)] returns, the peer being another
    security group it takes the standalone path, and the egress list holds
    no rule at all afterwards, so not the rule of that call. *)
Lemma first_returning_addEgressRule_standalone :
  props_allowAllOutbound deny_props = Some false
  ∧ succeeds (addEgressRule other_group tcp80 None fresh_deny)
  ∧ directEgressRules (addEgressRule other_group tcp80 None fresh_deny).2 = []
  ∧ egressCandidate other_group tcp80 None
      ∉ directEgressRules (addEgressRule other_group tcp80 None fresh_deny).2.
Proof.
  split; [reflexivity|]. split; [by exists ()|]. split; [reflexivity|].
  change (directEgressRules (addEgressRule other_group tcp80 None fresh_deny).2)
    with (@nil JsObj).
  apply not_elem_of_nil.
Qed.

(** C5, as the code has it.  After any sequence of [addIngressRule] and
    [addEgressRule] calls on a constructed group: in allow-all-outbound mode
    the egress list is [ALLOW_ALL_RULE] alone; in deny-by-default mode it is
    [MATCH_NO_TRAFFIC] alone as long as no [addEgressRule] call has been
    made; and once an [addEgressRule] call has returned in deny-by-default
    mode, no rule of the list is the bogus rule, then and after every later
    call, provided no call asks for an inline rule that the group takes for
    its own bogus rule. *)
Theorem egress_sentinel_phases parentPath name props cs :
  let this := new_SecurityGroup parentPath name props in
  (allowAllOutbound this = true →
     directEgressRules (run cs this) = [ALLOW_ALL_RULE])
  ∧ (allowAllOutbound this = false →
     existsb is_egress_call cs = false →
     directEgressRules (run cs this) = [MATCH_NO_TRAFFIC])
  ∧ (allowAllOutbound this = false →
     existsb builds_no_traffic_rule cs = false →
     egress_returned cs this = true →
     holds_no_traffic_rule (directEgressRules (run cs this)) = false
     ∧ MATCH_NO_TRAFFIC ∉ directEgressRules (run cs this)).
Proof.
  intros this.
  assert (Hmode : props_allowAllOutbound props ≠ Some false
                  ∨ props_allowAllOutbound props = Some false).
  { destruct (props_allowAllOutbound props) as [[]|]; eauto. }
  destruct Hmode as [H|H].
  - destruct (new_SecurityGroup_allow parentPath name props H) as [Hm Hl].
    fold this in Hm, Hl. rewrite Hm.
    split; [|by split]. intros _. by rewrite run_allow_egress.
  - destruct (new_SecurityGroup_deny parentPath name props H) as [Hm Hl].
    fold this in Hm, Hl. rewrite Hm. split; [done|]. split.
    + intros _ Hc. by rewrite run_ingress_only_egress.
    + intros _ Hb Hr.
      assert (holds_no_traffic_rule (directEgressRules (run cs this)) = false).
      { apply run_after_first_return; try done. by left. }
      split; [done|]. by apply holds_no_traffic_rule_elem.
Qed.

Lemma egress_sentinel_phases_witness :
  directEgressRules
    (run [AddEgressRule internal_net tcp80 None;
          AddIngressRule AnyIPv4 tcp22 None] fresh_allow) = [ALLOW_ALL_RULE]
  ∧ directEgressRules
      (run [AddIngressRule AnyIPv4 tcp22 None;
            AddIngressRule other_group tcp80 None] fresh_deny)
    = [MATCH_NO_TRAFFIC]
  ∧ MATCH_NO_TRAFFIC ∉
      directEgressRules
        (run [AddEgressRule AnyIPv4 AllConnections None;
              AddEgressRule internal_net tcp80 None;
              AddEgressRule other_group tcp22 None;
              AddEgressRule AnyIPv4 AllConnections None] fresh_deny).
Proof.
  split; [|split].
  - exact (proj1 (egress_sentinel_phases "Stack" "SG" allow_props
                    [AddEgressRule internal_net tcp80 None;
                     AddIngressRule AnyIPv4 tcp22 None]) eq_refl).
  - exact (proj1 (proj2 (egress_sentinel_phases "Stack" "SG" deny_props
                    [AddIngressRule AnyIPv4 tcp22 None;
                     AddIngressRule other_group tcp80 None])) eq_refl eq_refl).
  - exact (proj2 (proj2 (proj2 (egress_sentinel_phases "Stack" "SG" deny_props
                    [AddEgressRule AnyIPv4 AllConnections None;
                     AddEgressRule internal_net tcp80 None;
                     AddEgressRule other_group tcp22 None;
                     AddEgressRule AnyIPv4 AllConnections None]))
                  eq_refl eq_refl eq_refl)).
Defined.

(** C5 fails as stated: on a fresh deny-by-default group a real egress rule
    is added, which removes the bogus rule; a second call then asks
    explicitly for the unroutable address and the impossible ICMP type and
    code, with the bogus rule's description, and [MATCH_NO_TRAFFIC] is in
    the egress list again. *)
Lemma egress_sentinel_comes_back :
  all_return [AddEgressRule internal_net tcp80 None;
              AddEgressRule unroutable icmp_252_86 (Some "Disallow all traffic")]
             fresh_deny = true
  ∧ directEgressRules (run [AddEgressRule internal_net tcp80 None] fresh_deny)
    = [egressCandidate internal_net tcp80 None]
  ∧ directEgressRules
      (run [AddEgressRule internal_net tcp80 None;
            AddEgressRule unroutable icmp_252_86 (Some "Disallow all traffic")]
           fresh_deny)
    = [egressCandidate internal_net tcp80 None; MATCH_NO_TRAFFIC].
Proof. repeat split; reflexivity. Qed.

(** ** Some egress rule is always emitted *)

Lemma call_keeps_egress_rule (c : Call) (this this' : SecurityGroup) :
  egress_ids_ok this →
  call c this = (Normal (), this') →
  directEgressRules this ≠ [] ∨ has_egress_resource this →
  directEgressRules this' ≠ [] ∨ has_egress_resource this'.
Proof.
  intros Hok Hcall Hinv.
  assert (Hmono : has_egress_resource this → has_egress_resource this').
  { intros (id & props & Hid). exists id, props.
    pose proof (call_children_mono c this id _ Hid) as Hc.
    by rewrite Hcall in Hc. }
  destruct c as [p c d|p c d]; simpl in *.
  - destruct (addIngressRule_run p c d this) as (r0 & this1 & Hrun & Hl & _).
    rewrite Hrun in Hcall. simplify_eq. rewrite Hl. tauto.
  - destruct (allowAllOutbound this) eqn:Hm.
    { rewrite addEgressRule_allow in Hcall by done. by simplify_eq. }
    destruct (canInline p c) eqn:Hi.
    + revert Hcall. rewrite addEgressRule_deny by done. cbv zeta.
      rewrite removeNoTrafficRule_run, Hi. simpl.
      destruct (isAllTrafficRule _); [done|].
      rewrite addDirectEgressRule_run.
      destruct (existsb _ _) eqn:E; intros [= <-]; left.
      * simpl. intros Hnil. rewrite Hnil in E. done.
      * simpl. intros Hnil. by apply app_eq_nil in Hnil as [_ ?].
    + right.
      pose proof (addEgressRule_standalone_resource p c d this Hm Hok Hi) as Hr.
      by rewrite Hcall in Hr.
Qed.

(** C6, as the code has it.  After any sequence of [addIngressRule] and
    [addEgressRule] calls that all returned, in either mode and whether or
    not the peers and connections can be inlined, the group has an egress
    rule to emit: its inline egress list is not empty, or a standalone egress
    rule resource is among its children. *)
Theorem egress_rule_materialized parentPath name props cs :
  all_return cs (new_SecurityGroup parentPath name props) = true →
  directEgressRules (run cs (new_SecurityGroup parentPath name props)) ≠ []
  ∨ has_egress_resource (run cs (new_SecurityGroup parentPath name props)).
Proof.
  assert (Hgen : ∀ cs this,
    egress_ids_ok this →
    directEgressRules this ≠ [] ∨ has_egress_resource this →
    all_return cs this = true →
    directEgressRules (run cs this) ≠ [] ∨ has_egress_resource (run cs this)).
  { clear cs. induction cs as [|c cs IH]; intros this Hok Hinv Hret; simpl in *;
      [done|].
    pose proof (call_egress_ids_ok c this Hok) as Hok'.
    pose proof (call_keeps_egress_rule c this) as Hkeep.
    destruct (call c this) as [[[]|m] this1]; [|done]. simpl in *.
    apply IH; try done. by apply Hkeep. }
  intros Hret. apply Hgen; [apply new_SecurityGroup_egress_ids_ok| |done].
  left. unfold new_SecurityGroup. unfold_methods.
  by destruct (props_allowAllOutbound props) as [[]|].
Qed.

Lemma egress_rule_materialized_witness :
  directEgressRules
    (run [AddIngressRule AnyIPv4 tcp22 None;
          AddEgressRule other_group tcp80 None;
          AddEgressRule internal_net tcp80 (Some "web")] fresh_deny) ≠ []
  ∨ has_egress_resource
      (run [AddIngressRule AnyIPv4 tcp22 None;
            AddEgressRule other_group tcp80 None;
            AddEgressRule internal_net tcp80 (Some "web")] fresh_deny).
Proof.
  exact (egress_rule_materialized "Stack" "SG" deny_props
           [AddIngressRule AnyIPv4 tcp22 None;
            AddEgressRule other_group tcp80 None;
            AddEgressRule internal_net tcp80 (Some "web")] eq_refl).
Defined.

(** C6 fails as stated: on a fresh deny-by-default group, after an
    [addIngressRule] call and an [addEgressRule] call whose peer is another
    security group, both of which return, the emitted egress list is
    empty; the only egress rule is a standalone resource. *)
Lemma egress_list_empty_after_standalone :
  all_return [AddIngressRule AnyIPv4 tcp22 None;
              AddEgressRule other_group tcp22 None] fresh_deny = true
  ∧ directEgressRules
      (run [AddIngressRule AnyIPv4 tcp22 None;
            AddEgressRule other_group tcp22 None] fresh_deny) = [].
Proof. split; reflexivity. Qed.

(** ** addIngressRule on a taken id; the two directions do not interfere *)

(** C8.  [addIngressRule] can throw: on a fresh group, a call with a peer
    that cannot be inlined and whose unique id is "a/b/c" returns and
    registers its rule under the id "from a_b/c:22", only the first slash
    having been replaced; the same call made again throws, because
    [tryFindChild] takes the id for a path, does not find the child, and the
    constructor of the resource meets the name that is taken. *)
Theorem addIngressRule_duplicate_id_throws :
  (addIngressRule slashed_peer tcp22 None fresh_allow).1 = Normal ()
  ∧ ingressResourceId slashed_peer tcp22 = "from a_b/c:22"
  ∧ tryFindChild (addIngressRule slashed_peer tcp22 None fresh_allow).2
                 "from a_b/c:22" = None
  ∧ (addIngressRule slashed_peer tcp22 None
       (addIngressRule slashed_peer tcp22 None fresh_allow).2).1
    = Throw (duplicate_construct_message "from a_b/c:22" fresh_allow).
Proof. repeat split; reflexivity. Qed.

(** C9.  [addIngressRule] leaves [directEgressRules] as it was, and
    [addEgressRule] leaves [directIngressRules] as it was, whether it returns
    or throws. *)
Theorem ingress_egress_frame p c d (this : SecurityGroup) :
  directEgressRules (addIngressRule p c d this).2 = directEgressRules this
  ∧ directIngressRules (addEgressRule p c d this).2 = directIngressRules this.
Proof.
  split.
  - by destruct (addIngressRule_run p c d this) as (r0 & this' & -> & ? & _).
  - apply addEgressRule_frame.
Qed.

(** ** Ingress rules are kept apart by what CloudFormation compares *)

Lemma existsb_ingressRulesEqual (rule : JsObj) (l : list JsObj) :
  existsb (λ r, ingressRulesEqual r rule) l = true
  ↔ ingressKey rule ∈ ingressKey <$> l.
Proof.
  rewrite existsb_exists, list_elem_of_fmap. split.
  - intros (r & Hin & He). exists r. split; [|by apply list_elem_of_In].
    rewrite ingressRulesEqual_key in He. by apply bool_decide_eq_true in He.
  - intros (r & He & Hin). exists r. split; [by apply list_elem_of_In|].
    rewrite ingressRulesEqual_key. by apply bool_decide_eq_true.
Qed.

Lemma filter_none {A : Type} (f : A → bool) (l : list A) :
  existsb f l = false → List.filter f l = [].
Proof.
  induction l as [|x l IH]; simpl; [done|].
  destruct (f x); simpl; [done|]. apply IH.
Qed.

(** In a list of distinct rules a rule that is there is there once. *)
Lemma filter_distinct (rule : JsObj) (l : list JsObj) :
  NoDup (ingressKey <$> l) →
  existsb (λ r, ingressRulesEqual r rule) l = true →
  ∃ r, List.filter (λ r, ingressRulesEqual r rule) l = [r] ∧ r ∈ l.
Proof.
  induction l as [|x l IH]; simpl; [done|].
  rewrite NoDup_cons. intros [Hx Hl].
  destruct (ingressRulesEqual x rule) eqn:E; simpl.
  - intros _. exists x. split; [|by left]. f_equal. apply filter_none.
    apply not_true_is_false. rewrite existsb_ingressRulesEqual.
    rewrite ingressRulesEqual_key in E. apply bool_decide_eq_true in E.
    by rewrite <- E.
  - intros He. destruct (IH Hl He) as (r & Hf & Hin).
    exists r. split; [done|by right].
Qed.

Lemma call_ingress_distinct (c : Call) (this : SecurityGroup) :
  ingress_distinct this → ingress_distinct (call c this).2.
Proof.
  unfold ingress_distinct. intros Hd. destruct c as [p c d|p c d]; simpl.
  - destruct (canInline p c) eqn:E.
    + rewrite addIngressRule_inline, addDirectIngressRule_run by done.
      destruct (existsb _ _) eqn:Ex; simpl; [done|].
      rewrite fmap_app. simpl. apply NoDup_app. split; [done|].
      split; [|apply NoDup_singleton].
      intros k Hk ->%list_elem_of_singleton.
      apply existsb_ingressRulesEqual in Hk. congruence.
    + rewrite addIngressRule_standalone by done.
      by destruct (SecurityGroupBase_addIngressRule_run p c d this)
        as (r0 & kids & -> & _).
  - by destruct (addEgressRule_frame p c d this) as [-> _].
Qed.

Lemma run_ingress_distinct (cs : list Call) (this : SecurityGroup) :
  ingress_distinct this → ingress_distinct (run cs this).
Proof.
  revert this. induction cs as [|c cs IH]; intros this Hd; simpl; [done|].
  by apply IH, call_ingress_distinct.
Qed.

(** C7, as the code has it.  On a group reached from construction by any
    calls, when peer and port range can both be inlined, two
    [addIngressRule] calls with the same peer and port range (and any two
    descriptions) leave exactly one matching rule in the ingress list, and
    the second call changes nothing.  The rule left is the one of the call
    that first added it: the rule built by the first of the two calls, with
    its description, when the list held no matching rule before, and the
    matching rule that the list already held otherwise. *)
Theorem addIngressRule_twice parentPath name props cs p c d1 d2 :
  canInline p c = true →
  let this := run cs (new_SecurityGroup parentPath name props) in
  let this1 := (addIngressRule p c d1 this).2 in
  let this2 := (addIngressRule p c d2 this1).2 in
  let matching := λ r, ingressRulesEqual r (ingressCandidate p c d1) in
  this2 = this1
  ∧ ∃ r, List.filter matching (directIngressRules this2) = [r]
      ∧ (existsb matching (directIngressRules this) = false →
           r = ingressCandidate p c d1
           ∧ prop r "description"
               = JStr (default (defaultDescription p c) d1))
      ∧ (existsb matching (directIngressRules this) = true →
           r ∈ directIngressRules this).
Proof.
  intros Hi this this1 this2 matching.
  assert (Hd : ingress_distinct this).
  { apply run_ingress_distinct. unfold ingress_distinct.
    destruct (new_SecurityGroup_fresh parentPath name props) as [-> _].
    apply NoDup_nil_2. }
  assert (Hsame : ∀ l, existsb (λ r, ingressRulesEqual r (ingressCandidate p c d2)) l
                       = existsb matching l).
  { intros l. induction l as [|x l IH]; simpl; [done|]. rewrite IH. f_equal.
    unfold matching. rewrite !ingressRulesEqual_key.
    unfold ingressCandidate.
    by rewrite (ingressKey_inlineRule _ _
                  (default (defaultDescription p c) d2)
                  (default (defaultDescription p c) d1)). }
  subst this2 this1.
  rewrite !addIngressRule_inline by done.
  rewrite (addDirectIngressRule_run _ this).
  fold (matching). destruct (existsb matching (directIngressRules this)) eqn:E;
    simpl.
  - rewrite addDirectIngressRule_run, Hsame, E. simpl. split; [done|].
    destruct (filter_distinct _ _ Hd E) as (r & Hf & Hin).
    exists r. by repeat split.
  - rewrite addDirectIngressRule_run, Hsame. simpl.
    assert (Hself : matching (ingressCandidate p c d1) = true).
    { unfold matching. rewrite ingressRulesEqual_key.
      by apply bool_decide_eq_true. }
    rewrite existsb_app. simpl. rewrite Hself, orb_true_r. simpl.
    split; [done|].
    exists (ingressCandidate p c d1). split; [|split; [|done]].
    + rewrite List.filter_app, filter_none by done. simpl. by rewrite Hself.
    + intros _. split; [done|]. apply prop_inlineRule_description.
Qed.

Lemma addIngressRule_twice_witness :
  ∃ r, List.filter
         (λ r, ingressRulesEqual r (ingressCandidate internal_net tcp22 (Some "ssh")))
         (directIngressRules
            (addIngressRule internal_net tcp22 (Some "other-desc")
               (addIngressRule internal_net tcp22 (Some "ssh")
                  (run [AddIngressRule AnyIPv4 tcp80 None] fresh_deny)).2).2)
       = [r]
     ∧ prop r "description" = JStr "ssh".
Proof.
  destruct (addIngressRule_twice "Stack" "SG" deny_props
              [AddIngressRule AnyIPv4 tcp80 None]
              internal_net tcp22 (Some "ssh") (Some "other-desc") eq_refl)
    as (_ & r & Hf & Hfirst & _).
  exists r. split; [exact Hf|]. exact (proj2 (Hfirst eq_refl)).
Defined.

(** C7 fails as stated: when the peer is another security group, two
    [addIngressRule] calls with the same peer and port range leave no
    matching rule in the ingress list, which stays empty; the rule is a
    standalone resource. *)
Lemma addIngressRule_twice_standalone :
  List.filter
    (λ r, ingressRulesEqual r (ingressCandidate other_group tcp22 (Some "ssh")))
    (directIngressRules
       (addIngressRule other_group tcp22 (Some "other-desc")
          (addIngressRule other_group tcp22 (Some "ssh") fresh_deny).2).2)
  = []
  ∧ directIngressRules
      (addIngressRule other_group tcp22 (Some "other-desc")
         (addIngressRule other_group tcp22 (Some "ssh") fresh_deny).2).2 = [].
Proof. split; reflexivity. Qed.

(** ** Import and export *)

(** C10.  Exporting an imported security group gives back the import
    properties it was created from, and so does exporting an imported
    topic. *)
Theorem import_export_roundtrip :
  (∀ parentPath id (p : SecurityGroupImportProps),
     ImportedSecurityGroup_export (SecurityGroup_import parentPath id p) = p)
  ∧ (∀ parentPath name (p : TopicImportProps),
       ImportedTopic_export (Topic_import parentPath name p) = p).
Proof. split; reflexivity. Qed.

(** * Further properties of the rule sets *)

(** ** What the equality predicates look at *)

Lemma ingressKey_compared (o : JsObj) : ingressKey o = prop o <$> ingress_compared.
Proof. reflexivity. Qed.

Lemma egressKey_compared (o : JsObj) : egressKey o = prop o <$> egress_compared.
Proof. reflexivity. Qed.

Lemma prop_insert_ne (o : JsObj) (k k' : string) (v : JsVal) :
  k ≠ k' → prop (<[k := v]> o) k' = prop o k'.
Proof. intros H. unfold prop. by rewrite lookup_insert_ne. Qed.

Lemma fmap_prop_insert (o : JsObj) (k : string) (v : JsVal) (ks : list string) :
  k ∉ ks → prop (<[k := v]> o) <$> ks = prop o <$> ks.
Proof.
  induction ks as [|k' ks IH]; intros Hk; [done|].
  apply not_elem_of_cons in Hk as [Hne Hk].
  rewrite !fmap_cons. f_equal; [by apply prop_insert_ne|by apply IH].
Qed.

(** X1.  Both predicates are equivalence relations on rules. *)
Theorem rules_equal_equivalence :
  (∀ a, ingressRulesEqual a a = true)
  ∧ (∀ a b, ingressRulesEqual a b = ingressRulesEqual b a)
  ∧ (∀ a b c, ingressRulesEqual a b = true → ingressRulesEqual b c = true →
              ingressRulesEqual a c = true)
  ∧ (∀ a, egressRulesEqual a a = true)
  ∧ (∀ a b, egressRulesEqual a b = egressRulesEqual b a)
  ∧ (∀ a b c, egressRulesEqual a b = true → egressRulesEqual b c = true →
              egressRulesEqual a c = true).
Proof.
  repeat split; intros;
    rewrite ?ingressRulesEqual_key, ?egressRulesEqual_key in *.
  - by apply bool_decide_eq_true.
  - apply bool_decide_ext. split; congruence.
  - apply bool_decide_eq_true.
    repeat match goal with H : bool_decide _ = true |- _ =>
      apply bool_decide_eq_true in H end. congruence.
  - by apply bool_decide_eq_true.
  - apply bool_decide_ext. split; congruence.
  - apply bool_decide_eq_true.
    repeat match goal with H : bool_decide _ = true |- _ =>
      apply bool_decide_eq_true in H end. congruence.
Qed.

(** X2.  Setting a property that is not among the compared ones, on either
    side, does not change the outcome of the comparison: the description,
    and for ingress rules also [sourcePrefixListId], take no part in it. *)
Theorem rules_equal_other_properties (a b : JsObj) (k : string) (v : JsVal) :
  (k ∉ ingress_compared →
     ingressRulesEqual (<[k := v]> a) b = ingressRulesEqual a b
     ∧ ingressRulesEqual a (<[k := v]> b) = ingressRulesEqual a b)
  ∧ (k ∉ egress_compared →
     egressRulesEqual (<[k := v]> a) b = egressRulesEqual a b
     ∧ egressRulesEqual a (<[k := v]> b) = egressRulesEqual a b).
Proof.
  split; intros Hk.
  - rewrite !ingressRulesEqual_key, !ingressKey_compared.
    by rewrite !fmap_prop_insert.
  - rewrite !egressRulesEqual_key, !egressKey_compared.
    by rewrite !fmap_prop_insert.
Qed.

Lemma rules_equal_other_properties_witness :
  ingressRulesEqual
    (<["sourcePrefixListId" := JStr "pl-1"]> (toRuleJSON tcp80))
    (<["sourcePrefixListId" := JStr "pl-2"]> (toRuleJSON tcp80)) = true
  ∧ egressRulesEqual (<["description" := JStr "x"]> MATCH_NO_TRAFFIC)
                     MATCH_NO_TRAFFIC = true.
Proof.
  split.
  - destruct (proj1 (rules_equal_other_properties
                       (toRuleJSON tcp80)
                       (<["sourcePrefixListId" := JStr "pl-2"]> (toRuleJSON tcp80))
                       "sourcePrefixListId" (JStr "pl-1"))) as [H1 _].
    { unfold ingress_compared. rewrite !not_elem_of_cons.
      repeat split; try discriminate. apply not_elem_of_nil. }
    rewrite H1.
    destruct (proj1 (rules_equal_other_properties
                       (toRuleJSON tcp80) (toRuleJSON tcp80)
                       "sourcePrefixListId" (JStr "pl-2"))) as [_ H2].
    { unfold ingress_compared. rewrite !not_elem_of_cons.
      repeat split; try discriminate. apply not_elem_of_nil. }
    rewrite H2. reflexivity.
  - destruct (proj2 (rules_equal_other_properties
                       MATCH_NO_TRAFFIC MATCH_NO_TRAFFIC
                       "description" (JStr "x"))) as [H1 _].
    { unfold egress_compared. rewrite !not_elem_of_cons.
      repeat split; try discriminate. apply not_elem_of_nil. }
    rewrite H1. reflexivity.
Defined.

(** ** The lists after one call *)

Lemma existsb_egressRulesEqual (rule : JsObj) (l : list JsObj) :
  existsb (λ r, egressRulesEqual r rule) l = true
  ↔ egressKey rule ∈ egressKey <$> l.
Proof.
  rewrite existsb_exists, list_elem_of_fmap. split.
  - intros (r & Hin & He). exists r. split; [|by apply list_elem_of_In].
    rewrite egressRulesEqual_key in He. by apply bool_decide_eq_true in He.
  - intros (r & He & Hin). exists r. split; [by apply list_elem_of_In|].
    rewrite egressRulesEqual_key. by apply bool_decide_eq_true.
Qed.

Lemma elem_of_remove_first {A : Type} (f : A → bool) (l : list A) (x : A) :
  x ∈ remove_first f l → x ∈ l.
Proof.
  induction l as [|y l IH]; simpl; [done|].
  destruct (f y); [by right|]. rewrite !elem_of_cons. tauto.
Qed.

Lemma elem_of_remove_first_other {A : Type} (f : A → bool) (l : list A) (x : A) :
  x ∈ l → f x = false → x ∈ remove_first f l.
Proof.
  induction l as [|y l IH]; simpl; [done|]. intros Hin Hx.
  destruct (f y) eqn:E.
  - apply elem_of_cons in Hin as [->|Hin]; [congruence|done].
  - apply elem_of_cons in Hin as [->|Hin]; [by left|right; by apply IH].
Qed.

Lemma NoDup_remove_first {A B : Type} (g : A → B) (f : A → bool) (l : list A) :
  NoDup (g <$> l) → NoDup (g <$> remove_first f l).
Proof.
  induction l as [|y l IH]; simpl; [done|].
  rewrite NoDup_cons. intros [Hy Hl]. destruct (f y); [done|].
  simpl. apply NoDup_cons. split; [|by apply IH].
  intros (x & Hx & Hin)%list_elem_of_fmap. apply Hy.
  apply list_elem_of_fmap. exists x. split; [done|].
  by eapply elem_of_remove_first.
Qed.

(** Among distinct rules, taking the first match out leaves no match. *)
Lemma remove_first_distinct (rule : JsObj) (l : list JsObj) :
  NoDup (egressKey <$> l) →
  existsb (λ r, egressRulesEqual r rule)
          (remove_first (λ r, egressRulesEqual r rule) l) = false.
Proof.
  induction l as [|y l IH]; simpl; [done|].
  rewrite NoDup_cons. intros [Hy Hl].
  destruct (egressRulesEqual y rule) eqn:E; simpl.
  - apply not_true_is_false. rewrite existsb_egressRulesEqual.
    rewrite egressRulesEqual_key in E. apply bool_decide_eq_true in E.
    by rewrite <- E.
  - rewrite E. simpl. by apply IH.
Qed.

(** The ingress list after [addIngressRule]. *)
Lemma addIngressRule_list p c d (this : SecurityGroup) :
  directIngressRules (addIngressRule p c d this).2
  = if canInline p c
       && negb (existsb (λ r, ingressRulesEqual r (ingressCandidate p c d))
                        (directIngressRules this))
    then (directIngressRules this ++ [ingressCandidate p c d])%list
    else directIngressRules this.
Proof.
  destruct (canInline p c) eqn:E; simpl.
  - rewrite addIngressRule_inline, addDirectIngressRule_run by done.
    by destruct (existsb _ _).
  - rewrite addIngressRule_standalone by done.
    by destruct (SecurityGroupBase_addIngressRule_run p c d this)
      as (r0 & kids & -> & _).
Qed.

(** The egress list after [addEgressRule] in deny-by-default mode. *)
Lemma addEgressRule_list p c d (this : SecurityGroup) :
  allowAllOutbound this = false →
  directEgressRules (addEgressRule p c d this).2
  = let l := remove_first (λ r, egressRulesEqual r MATCH_NO_TRAFFIC)
                          (directEgressRules this) in
    if canInline p c
       && negb (isAllTrafficRule (egressCandidate p c d))
       && negb (existsb (λ r, egressRulesEqual r (egressCandidate p c d)) l)
    then (l ++ [egressCandidate p c d])%list
    else l.
Proof.
  intros Hm. rewrite addEgressRule_deny by done. cbv zeta.
  rewrite removeNoTrafficRule_run. simpl.
  destruct (canInline p c); simpl.
  - destruct (isAllTrafficRule _); simpl; [done|].
    rewrite addDirectEgressRule_run. by destruct (existsb _ _).
  - match goal with |- context [SecurityGroupBase_addEgressRule p c d ?s] =>
      destruct (SecurityGroupBase_addEgressRule_run p c d s)
        as (r0 & kids & -> & _) end.
    done.
Qed.

Lemma addIngressRule_keeps_egress p c d (this : SecurityGroup) :
  directEgressRules (addIngressRule p c d this).2 = directEgressRules this.
Proof. by destruct (addIngressRule_run p c d this) as (r0 & this' & -> & ? & _). Qed.

Lemma call_ingress_list (c : Call) (this : SecurityGroup) :
  ∃ l, directIngressRules (call c this).2 = (directIngressRules this ++ l)%list.
Proof.
  destruct c as [p c d|p c d]; simpl.
  - rewrite addIngressRule_list. destruct (_ && _); [by eexists|].
    exists []. by rewrite app_nil_r.
  - destruct (addEgressRule_frame p c d this) as [-> _].
    exists []. by rewrite app_nil_r.
Qed.

Lemma call_egress_list_allow (c : Call) (this : SecurityGroup) :
  allowAllOutbound this = true →
  directEgressRules (call c this).2 = directEgressRules this.
Proof.
  intros Hm. destruct c as [p c d|p c d]; simpl.
  - by destruct (addIngressRule_run p c d this) as (r0 & this' & -> & ? & _).
  - by rewrite addEgressRule_allow.
Qed.

(** ** What every reachable group satisfies *)

(** A property kept by every call is kept by every sequence of calls. *)
Lemma run_invariant (P : SecurityGroup → Prop) :
  (∀ c this, P this → P (call c this).2) →
  ∀ cs this, P this → P (run cs this).
Proof.
  intros Hstep cs. induction cs as [|c cs IH]; intros this HP; simpl; [done|].
  by apply IH, Hstep.
Qed.

Lemma call_egress_distinct (c : Call) (this : SecurityGroup) :
  egress_distinct this → egress_distinct (call c this).2.
Proof.
  unfold egress_distinct. intros Hd.
  destruct (allowAllOutbound this) eqn:Hm.
  { by rewrite call_egress_list_allow. }
  destruct c as [p c d|p c d]; simpl.
  - by rewrite addIngressRule_keeps_egress.
  - rewrite addEgressRule_list by done. cbv zeta.
    pose proof (NoDup_remove_first egressKey
                  (λ r, egressRulesEqual r MATCH_NO_TRAFFIC) _ Hd) as Hd'.
    destruct (canInline p c && negb (isAllTrafficRule _)); simpl; [|done].
    destruct (existsb _ _) eqn:Ex; simpl; [done|].
    rewrite fmap_app. simpl. apply NoDup_app. split; [done|].
    split; [|apply NoDup_singleton].
    intros k Hk ->%list_elem_of_singleton.
    apply existsb_egressRulesEqual in Hk. congruence.
Qed.

Lemma new_SecurityGroup_egress_distinct parentPath name props :
  egress_distinct (new_SecurityGroup parentPath name props).
Proof.
  unfold egress_distinct, new_SecurityGroup. unfold_methods.
  destruct (props_allowAllOutbound props) as [[]|]; simpl;
    apply NoDup_singleton.
Qed.

Lemma distinct_positions {A B : Type} `{EqDecision B} (g : A → B) (l : list A) :
  NoDup (g <$> l) →
  ∀ i j a b, l !! i = Some a → l !! j = Some b → g a = g b → i = j.
Proof.
  intros Hd i j a b Hi Hj Hg.
  apply (proj1 (NoDup_alt (g <$> l)) Hd i j (g a)).
  - by rewrite list_lookup_fmap, Hi.
  - by rewrite list_lookup_fmap, Hj, Hg.
Qed.

(** X3.  In every group reached from construction by [addIngressRule] and
    [addEgressRule] calls, no two positions of the ingress list hold rules
    that [ingressRulesEqual] takes for equal, and no two positions of the
    egress list hold rules that [egressRulesEqual] takes for equal. *)
Theorem reachable_lists_distinct parentPath name props cs :
  (∀ i j a b,
     directIngressRules (run cs (new_SecurityGroup parentPath name props)) !! i
       = Some a →
     directIngressRules (run cs (new_SecurityGroup parentPath name props)) !! j
       = Some b →
     ingressRulesEqual a b = true → i = j)
  ∧ (∀ i j a b,
     directEgressRules (run cs (new_SecurityGroup parentPath name props)) !! i
       = Some a →
     directEgressRules (run cs (new_SecurityGroup parentPath name props)) !! j
       = Some b →
     egressRulesEqual a b = true → i = j).
Proof.
  split; intros i j a b Hi Hj He.
  - assert (Hd : ingress_distinct (run cs (new_SecurityGroup parentPath name props))).
    { apply run_ingress_distinct. unfold ingress_distinct.
      destruct (new_SecurityGroup_fresh parentPath name props) as [-> _].
      apply NoDup_nil_2. }
    rewrite ingressRulesEqual_key in He. apply bool_decide_eq_true in He.
    by eapply (distinct_positions ingressKey).
  - assert (Hd : egress_distinct (run cs (new_SecurityGroup parentPath name props))).
    { apply run_invariant; [apply call_egress_distinct|].
      apply new_SecurityGroup_egress_distinct. }
    rewrite egressRulesEqual_key in He. apply bool_decide_eq_true in He.
    by eapply (distinct_positions egressKey).
Qed.

(** X4.  A deny-by-default group never holds an all-traffic rule in its
    egress list, whatever calls were made on it. *)
Theorem deny_by_default_holds_no_all_traffic_rule parentPath name props cs r :
  props_allowAllOutbound props = Some false →
  r ∈ directEgressRules (run cs (new_SecurityGroup parentPath name props)) →
  isAllTrafficRule r = false.
Proof.
  intros H.
  destruct (new_SecurityGroup_deny parentPath name props H) as [Hm Hl].
  pose (P := λ this : SecurityGroup,
    allowAllOutbound this = false
    ∧ ∀ r, r ∈ directEgressRules this → isAllTrafficRule r = false).
  assert (HP : P (run cs (new_SecurityGroup parentPath name props))).
  { apply run_invariant.
    - clear. intros c this [Hm Hall]. split; [by rewrite call_allowAllOutbound|].
      destruct c as [p c d|p c d]; simpl.
      + by rewrite addIngressRule_keeps_egress.
      + rewrite addEgressRule_list by done. cbv zeta. intros r.
        destruct (canInline p c); simpl;
          [|intros Hr%elem_of_remove_first; by apply Hall].
        destruct (isAllTrafficRule (egressCandidate p c d)) eqn:Ha; simpl;
          [intros Hr%elem_of_remove_first; by apply Hall|].
        destruct (existsb _ _); simpl;
          [intros Hr%elem_of_remove_first; by apply Hall|].
        rewrite elem_of_app, list_elem_of_singleton.
        intros [Hr%elem_of_remove_first| ->]; [by apply Hall|done].
    - split; [done|]. rewrite Hl. by intros r' ->%list_elem_of_singleton. }
  intros Hr. by apply HP.
Qed.

Lemma deny_by_default_holds_no_all_traffic_rule_witness :
  isAllTrafficRule (egressCandidate internal_net tcp80 None) = false.
Proof.
  apply (deny_by_default_holds_no_all_traffic_rule "Stack" "SG" deny_props
           [AddEgressRule AnyIPv4 AllConnections None;
            AddEgressRule internal_net tcp80 None]).
  - reflexivity.
  - apply list_elem_of_In. left. reflexivity.
Defined.

Lemma run_ingress_list (cs : list Call) (this : SecurityGroup) :
  ∃ l, directIngressRules (run cs this) = (directIngressRules this ++ l)%list.
Proof.
  revert this. induction cs as [|c cs IH]; intros this; simpl.
  - exists []. by rewrite app_nil_r.
  - destruct (IH (call c this).2) as [l2 ->].
    destruct (call_ingress_list c this) as [l1 ->].
    exists (l1 ++ l2)%list. by rewrite app_assoc.
Qed.

(** X5.  The ingress list only grows at its end: after any sequence of
    calls, on any group, it is the list before followed by the rules added
    since; no ingress rule is removed, replaced or moved. *)
Theorem ingress_append_only (cs : list Call) (this : SecurityGroup) :
  ∃ l, directIngressRules (run cs this) = (directIngressRules this ++ l)%list.
Proof. apply run_ingress_list. Qed.

(** X6.  An egress rule that [removeNoTrafficRule] does not take for the
    bogus rule stays in the egress list through every later call. *)
Theorem egress_rule_persists (cs : list Call) (this : SecurityGroup) (r : JsObj) :
  r ∈ directEgressRules this →
  egressRulesEqual r MATCH_NO_TRAFFIC = false →
  r ∈ directEgressRules (run cs this).
Proof.
  intros Hin Hr. revert Hin. apply (run_invariant (λ s, r ∈ directEgressRules s)).
  clear this. intros c this Hin.
  destruct (allowAllOutbound this) eqn:Hm.
  { by rewrite call_egress_list_allow. }
  destruct c as [p c d|p c d]; simpl.
  - by rewrite addIngressRule_keeps_egress.
  - rewrite addEgressRule_list by done. cbv zeta.
    pose proof (elem_of_remove_first_other
                  (λ r, egressRulesEqual r MATCH_NO_TRAFFIC) _ _ Hin Hr) as Hin'.
    destruct (_ && _); [|done]. apply elem_of_app. by left.
Qed.

Lemma egress_rule_persists_witness :
  egressCandidate internal_net tcp80 None
  ∈ directEgressRules
      (run [AddEgressRule unroutable icmp_252_86 None;
            AddEgressRule AnyIPv4 AllConnections None;
            AddEgressRule other_group tcp22 None]
           (run [AddEgressRule internal_net tcp80 None] fresh_deny)).
Proof.
  apply egress_rule_persists.
  - apply list_elem_of_In. left. reflexivity.
  - reflexivity.
Defined.

(** X7.  No call removes or replaces a child of the group: a resource
    registered under an id is still there, unchanged, after any sequence of
    calls. *)
Theorem children_never_replaced (cs : list Call) (this : SecurityGroup) id r :
  children this !! id = Some r → children (run cs this) !! id = Some r.
Proof.
  apply (run_invariant (λ s, children s !! id = Some r)).
  intros c s. apply call_children_mono.
Qed.

Lemma children_never_replaced_witness :
  ∃ r, children
         (run [AddIngressRule other_group tcp22 (Some "again");
               AddEgressRule other_group tcp22 None]
              (run [AddIngressRule other_group tcp22 (Some "ssh")] fresh_deny))
       !! ingressResourceId other_group tcp22 = Some r
     ∧ ∃ props, r = CfnSecurityGroupIngress props
                ∧ prop props "description" = JStr "ssh".
Proof.
  eexists. split.
  - apply children_never_replaced. reflexivity.
  - eexists. split; reflexivity.
Defined.

(** ** The standalone paths *)

(** X8.  On the standalone path, after an [addIngressRule] call that
    cannot be inlined, a second such call whose peer and connection give the
    same id leaves the group as it is, whatever its description and whatever
    rule it asks for.  It returns when the id holds no slash: the duplicate
    is skipped.  It throws when the id still holds a slash: the lookup takes
    the id for a path and misses the child, and the resource cannot be
    registered twice.  This is so for the same peer and connection, and also
    for different ones whose ids coincide once the first slash is
    replaced. *)
Theorem standalone_ingress_same_id p1 c1 d1 p2 c2 d2 (this : SecurityGroup) :
  canInline p1 c1 = false →
  canInline p2 c2 = false →
  ingressResourceId p1 c1 = ingressResourceId p2 c2 →
  (addIngressRule p2 c2 d2 (addIngressRule p1 c1 d1 this).2).2
    = (addIngressRule p1 c1 d1 this).2
  ∧ (keeps_slash (ingressResourceId p2 c2) = false →
     (addIngressRule p2 c2 d2 (addIngressRule p1 c1 d1 this).2).1 = Normal ())
  ∧ (keeps_slash (ingressResourceId p2 c2) = true →
     raises (addIngressRule p2 c2 d2 (addIngressRule p1 c1 d1 this).2)).
Proof.
  intros H1 H2 Hid. rewrite !addIngressRule_standalone by done.
  assert (Hchild : is_Some (children (SecurityGroupBase_addIngressRule p1 c1 d1 this).2
                            !! ingressResourceId p2 c2)).
  { rewrite <- Hid, SecurityGroupBase_addIngressRule_eq.
    destruct (children this !! ingressResourceId p1 c1) eqn:E; simpl.
    - rewrite E. by eexists.
    - rewrite lookup_insert_eq. by eexists. }
  destruct Hchild as [r Hr].
  rewrite (SecurityGroupBase_addIngressRule_eq p2), Hr. simpl.
  split; [done|]. split; intros ->; [done|]. by eexists.
Qed.

Lemma standalone_ingress_same_id_witness :
  addIngressRule other_group tcp22 (Some "other-desc")
    (addIngressRule other_group tcp22 (Some "ssh") fresh_deny).2
  = (Normal (), (addIngressRule other_group tcp22 (Some "ssh") fresh_deny).2)
  ∧ addIngressRule (SecurityGroupPeer "a_b" "sg-4") tcp22 None
      (addIngressRule (SecurityGroupPeer "a/b" "sg-3") tcp22 None fresh_deny).2
    = (Normal (),
       (addIngressRule (SecurityGroupPeer "a/b" "sg-3") tcp22 None fresh_deny).2)
  ∧ raises (addIngressRule slashed_peer tcp22 None
              (addIngressRule slashed_peer tcp22 None fresh_deny).2).
Proof.
  split; [|split].
  - destruct (standalone_ingress_same_id other_group tcp22 (Some "ssh")
                other_group tcp22 (Some "other-desc") fresh_deny
                eq_refl eq_refl eq_refl) as (Hs & Hn & _).
    apply injective_projections; [exact (Hn eq_refl)|exact Hs].
  - destruct (standalone_ingress_same_id
                (SecurityGroupPeer "a/b" "sg-3") tcp22 None
                (SecurityGroupPeer "a_b" "sg-4") tcp22 None fresh_deny
                eq_refl eq_refl eq_refl) as (Hs & Hn & _).
    apply injective_projections; [exact (Hn eq_refl)|exact Hs].
  - exact (proj2 (proj2 (standalone_ingress_same_id slashed_peer tcp22 None
                           slashed_peer tcp22 None fresh_deny
                           eq_refl eq_refl eq_refl)) eq_refl).
Defined.

(** ** The id of a standalone rule *)

Lemma replace_slash_append (a b : string) :
  count_char "/" a = 0%nat →
  replace_slash (a ++ b) = a ++ replace_slash b.
Proof.
  induction a as [|x a IH]; simpl; [done|].
  destruct (Ascii.eqb x "/"); [done|]. simpl. intros H. by rewrite IH.
Qed.

(** X9.  [id.replace('/', '_')] replaces the first slash only: the id keeps
    its length, has one slash less than before (none less when it had
    none), what precedes the first slash and what follows it are kept as
    they are, and an id without a slash is left alone.  So an id with two or
    more slashes still has a slash afterwards. *)
Theorem replace_slash_first_only (s : string) :
  String.length (replace_slash s) = String.length s
  ∧ count_char "/" (replace_slash s) = Nat.pred (count_char "/" s)
  ∧ (∀ a b, s = a ++ "/" ++ b → count_char "/" a = 0%nat →
            replace_slash s = a ++ "_" ++ b)
  ∧ (count_char "/" s = 0%nat → replace_slash s = s).
Proof.
  split; [|split; [|split]].
  - induction s as [|x s IH]; simpl; [done|].
    destruct (Ascii.eqb x "/"); simpl; [done|]. by rewrite IH.
  - induction s as [|x s IH]; simpl; [done|].
    destruct (Ascii.eqb x "/") eqn:E; simpl.
    + done.
    + by rewrite E.
  - intros a b -> Ha. by rewrite replace_slash_append.
  - induction s as [|x s IH]; simpl; [done|].
    destruct (Ascii.eqb x "/"); simpl; [done|]. intros H. by rewrite IH.
Qed.

(** ** The bogus rule and explicit rules that look like it *)

Lemma new_SecurityGroup_reachable_distinct parentPath name props cs :
  egress_distinct (run cs (new_SecurityGroup parentPath name props)).
Proof.
  apply run_invariant; [apply call_egress_distinct|].
  apply new_SecurityGroup_egress_distinct.
Qed.

(** A rule taken for the bogus rule is not an all-traffic rule. *)
Lemma no_traffic_not_all_traffic (r : JsObj) :
  egressRulesEqual r MATCH_NO_TRAFFIC = true → isAllTrafficRule r = false.
Proof.
  unfold egressRulesEqual, same, strict_eq, isAllTrafficRule.
  rewrite !andb_true_iff, !bool_decide_eq_true.
  intros [[[[[[-> _] _] _] _] _] _]. reflexivity.
Qed.

Lemma existsb_egressRulesEqual_same (a b : JsObj) (l : list JsObj) :
  egressKey a = egressKey b →
  existsb (λ r, egressRulesEqual r a) l = existsb (λ r, egressRulesEqual r b) l.
Proof.
  intros H. induction l as [|x l IH]; simpl; [done|].
  by rewrite IH, !egressRulesEqual_key, H.
Qed.

Lemma holds_no_traffic_rule_after_call parentPath name props cs p c d :
  props_allowAllOutbound props = Some false →
  holds_no_traffic_rule
    (directEgressRules
       (addEgressRule p c d (run cs (new_SecurityGroup parentPath name props))).2)
  = builds_no_traffic_rule (AddEgressRule p c d).
Proof.
  intros H.
  destruct (new_SecurityGroup_deny parentPath name props H) as [Hm _].
  pose proof (new_SecurityGroup_reachable_distinct parentPath name props cs) as Hd.
  rewrite <- (run_allowAllOutbound cs) in Hm.
  rewrite addEgressRule_list by done. cbv zeta.
  pose proof (remove_first_distinct MATCH_NO_TRAFFIC _ Hd) as Hnone.
  unfold builds_no_traffic_rule, holds_no_traffic_rule.
  destruct (canInline p c); simpl; [|done].
  destruct (egressRulesEqual (egressCandidate p c d) MATCH_NO_TRAFFIC) eqn:E.
  - rewrite (no_traffic_not_all_traffic _ E). simpl.
    rewrite (existsb_egressRulesEqual_same (egressCandidate p c d)
               MATCH_NO_TRAFFIC), Hnone.
    + simpl. rewrite existsb_app. simpl. by rewrite E, orb_true_r.
    + rewrite egressRulesEqual_key in E. by apply bool_decide_eq_true in E.
  - destruct (_ && _); [|done].
    rewrite existsb_app, Hnone. simpl. by rewrite E.
Qed.

(** X10.  On a deny-by-default group reached from construction, after any
    [addEgressRule] call, returning or throwing, the egress list holds a
    rule that [removeNoTrafficRule] takes for the bogus rule exactly when
    that very call asked for such a rule on the inline path.  So the bogus
    rule of the constructor is gone after the first call, and an explicit
    rule that looks like it is taken out again by the next call. *)
Theorem no_traffic_rule_after_addEgressRule parentPath name props cs p c d :
  props_allowAllOutbound props = Some false →
  holds_no_traffic_rule
    (directEgressRules
       (addEgressRule p c d (run cs (new_SecurityGroup parentPath name props))).2)
  = builds_no_traffic_rule (AddEgressRule p c d).
Proof. apply holds_no_traffic_rule_after_call. Qed.

Lemma no_traffic_rule_after_addEgressRule_witness :
  holds_no_traffic_rule
    (directEgressRules
       (addEgressRule unroutable icmp_252_86 (Some "mine")
          (run [AddEgressRule internal_net tcp80 None] fresh_deny)).2) = true
  ∧ holds_no_traffic_rule
      (directEgressRules
         (addEgressRule internal_net tcp22 None
            (run [AddEgressRule internal_net tcp80 None;
                  AddEgressRule unroutable icmp_252_86 (Some "mine")]
                 fresh_deny)).2) = false.
Proof.
  split.
  - exact (no_traffic_rule_after_addEgressRule "Stack" "SG" deny_props
             [AddEgressRule internal_net tcp80 None]
             unroutable icmp_252_86 (Some "mine") eq_refl).
  - exact (no_traffic_rule_after_addEgressRule "Stack" "SG" deny_props
             [AddEgressRule internal_net tcp80 None;
              AddEgressRule unroutable icmp_252_86 (Some "mine")]
             internal_net tcp22 None eq_refl).
Defined.

(** ** Adding the same egress rule twice *)

Lemma filter_distinct_egress (rule : JsObj) (l : list JsObj) :
  NoDup (egressKey <$> l) →
  existsb (λ r, egressRulesEqual r rule) l = true →
  ∃ r, List.filter (λ r, egressRulesEqual r rule) l = [r] ∧ r ∈ l.
Proof.
  induction l as [|x l IH]; simpl; [done|].
  rewrite NoDup_cons. intros [Hx Hl].
  destruct (egressRulesEqual x rule) eqn:E; simpl.
  - intros _. exists x. split; [|by left]. f_equal. apply filter_none.
    apply not_true_is_false. rewrite existsb_egressRulesEqual.
    rewrite egressRulesEqual_key in E. apply bool_decide_eq_true in E.
    by rewrite <- E.
  - intros He. destruct (IH Hl He) as (r & Hf & Hin).
    exists r. split; [done|by right].
Qed.

Lemma isAllTrafficRule_inlineRule (j : JsObj) (c : IPortRange) (d1 d2 : string) :
  isAllTrafficRule (inlineRule j c d1) = isAllTrafficRule (inlineRule j c d2).
Proof. unfold isAllTrafficRule. by rewrite !prop_inlineRule. Qed.

(** X11.  On a deny-by-default group reached from construction, when peer
    and connection can both be inlined and the rule they give is neither an
    all-traffic rule nor one taken for the bogus rule, two [addEgressRule]
    calls with the same peer and connection (and any two descriptions) both
    return, the second changes nothing, and exactly one matching rule is in
    the egress list afterwards. *)
Theorem addEgressRule_twice parentPath name props cs p c d1 d2 :
  props_allowAllOutbound props = Some false →
  canInline p c = true →
  isAllTrafficRule (egressCandidate p c d1) = false →
  egressRulesEqual (egressCandidate p c d1) MATCH_NO_TRAFFIC = false →
  let this := run cs (new_SecurityGroup parentPath name props) in
  let this1 := (addEgressRule p c d1 this).2 in
  (addEgressRule p c d1 this).1 = Normal ()
  ∧ addEgressRule p c d2 this1 = (Normal (), this1)
  ∧ ∃ r, List.filter (λ r, egressRulesEqual r (egressCandidate p c d1))
                     (directEgressRules this1) = [r].
Proof.
  intros H Hi Ha Hs this this1.
  destruct (new_SecurityGroup_deny parentPath name props H) as [Hm _].
  rewrite <- (run_allowAllOutbound cs) in Hm. fold this in Hm.
  assert (Hd1 : egress_distinct this1).
  { apply (call_egress_distinct (AddEgressRule p c d1)).
    apply new_SecurityGroup_reachable_distinct. }
  assert (Hm1 : allowAllOutbound this1 = false).
  { unfold this1. by rewrite (proj2 (addEgressRule_frame p c d1 this)). }
  assert (Hk : egressKey (egressCandidate p c d2) = egressKey (egressCandidate p c d1)).
  { apply egressKey_inlineRule. }
  assert (Hnone : holds_no_traffic_rule (directEgressRules this1) = false).
  { unfold this1, this.
    rewrite (holds_no_traffic_rule_after_call parentPath name props cs p c d1 H).
    simpl. by rewrite Hs, andb_false_r. }
  assert (Hin : existsb (λ r, egressRulesEqual r (egressCandidate p c d1))
                        (directEgressRules this1) = true).
  { unfold this1. rewrite addEgressRule_list by done. cbv zeta.
    rewrite Hi, Ha. simpl.
    destruct (existsb (λ r, egressRulesEqual r (egressCandidate p c d1))
                (remove_first (λ r, egressRulesEqual r MATCH_NO_TRAFFIC)
                   (directEgressRules this))) eqn:E; simpl; [done|].
    rewrite existsb_app. simpl.
    rewrite egressRulesEqual_key, bool_decide_eq_true_2 by done.
    by rewrite orb_true_r. }
  split; [|split].
  - rewrite addEgressRule_deny by done. cbv zeta.
    by rewrite Hi, Ha, addDirectEgressRule_run.
  - rewrite addEgressRule_deny by done. cbv zeta.
    rewrite removeNoTrafficRule_run, remove_first_none by done.
    rewrite with_directEgressRules_id, Hi.
    unfold egressCandidate in *.
    rewrite (isAllTrafficRule_inlineRule _ _ _
               (default (defaultDescription p c) d1)), Ha.
    rewrite addDirectEgressRule_run. simpl.
    by rewrite (existsb_egressRulesEqual_same _ _ _ Hk), Hin.
  - destruct (filter_distinct_egress _ _ Hd1 Hin) as (r & Hf & _). eauto.
Qed.

Lemma addEgressRule_twice_witness :
  addEgressRule internal_net tcp80 (Some "dup")
    (addEgressRule internal_net tcp80 None
       (run [AddEgressRule other_group tcp22 None] fresh_deny)).2
  = (Normal (),
     (addEgressRule internal_net tcp80 None
        (run [AddEgressRule other_group tcp22 None] fresh_deny)).2).
Proof.
  exact (proj1 (proj2 (addEgressRule_twice "Stack" "SG" deny_props
                         [AddEgressRule other_group tcp22 None]
                         internal_net tcp80 None (Some "dup")
                         eq_refl eq_refl eq_refl eq_refl))).
Defined.

(** ** Inline ingress rules *)

Lemma addIngressRule_puts_rule p c d (this : SecurityGroup) :
  canInline p c = true →
  existsb (λ r, ingressRulesEqual r (ingressCandidate p c d))
          (directIngressRules (addIngressRule p c d this).2) = true.
Proof.
  intros Hi. rewrite addIngressRule_list, Hi. simpl.
  destruct (existsb (λ r, ingressRulesEqual r (ingressCandidate p c d))
              (directIngressRules this)) eqn:E; simpl; [done|].
  rewrite existsb_app. simpl.
  rewrite ingressRulesEqual_key, bool_decide_eq_true_2 by done.
  by rewrite orb_true_r.
Qed.

(** X12.  Once [addIngressRule] has been called with a peer and a
    connection that can both be inlined, the ingress list holds a rule equal
    to the one of the call, up to description, and keeps holding it through
    every later call. *)
Theorem ingress_rule_stays p c d (cs : list Call) (this : SecurityGroup) :
  canInline p c = true →
  existsb (λ r, ingressRulesEqual r (ingressCandidate p c d))
          (directIngressRules (run cs (addIngressRule p c d this).2)) = true.
Proof.
  intros Hi.
  destruct (run_ingress_list cs (addIngressRule p c d this).2) as [l ->].
  rewrite existsb_app. apply orb_true_iff. left.
  by apply addIngressRule_puts_rule.
Qed.

Lemma ingress_rule_stays_witness :
  existsb (λ r, ingressRulesEqual r (ingressCandidate internal_net tcp22 (Some "ssh")))
    (directIngressRules
       (run [AddIngressRule AnyIPv4 tcp80 None;
             AddEgressRule AnyIPv4 AllConnections None;
             AddIngressRule internal_net tcp22 (Some "again")]
            (addIngressRule internal_net tcp22 (Some "ssh") fresh_deny).2))
  = true.
Proof. apply ingress_rule_stays. reflexivity. Defined.

Lemma prop_spread_singleton (o : JsObj) (k0 k : string) (v : JsVal) :
  k ≠ k0 → prop (spread {[k0 := v]} o) k = prop o k.
Proof.
  intros Hk. unfold prop, spread.
  rewrite lookup_union, lookup_singleton_ne by done.
  by destruct (o !! k).
Qed.

(** X13.  Ingress de-duplication does not tell prefix lists apart: when two
    peers project to nothing but a [sourcePrefixListId], an inline
    [addIngressRule] call for the second, with the same connection as a call
    already made for the first, changes nothing, also when the two prefix
    list ids differ. *)
Theorem ingress_prefix_lists_not_told_apart p1 p2 c d1 d2 v1 v2
    (this : SecurityGroup) :
  canInline p1 c = true →
  canInline p2 c = true →
  toIngressRuleJSON p1 = {[ "sourcePrefixListId" := v1 ]} →
  toIngressRuleJSON p2 = {[ "sourcePrefixListId" := v2 ]} →
  addIngressRule p2 c d2 (addIngressRule p1 c d1 this).2
  = (Normal (), (addIngressRule p1 c d1 this).2).
Proof.
  intros H1 H2 J1 J2.
  assert (Hk : ingressKey (ingressCandidate p2 c d2)
               = ingressKey (ingressCandidate p1 c d1)).
  { unfold ingressCandidate, ingressKey. simpl.
    rewrite !prop_inlineRule, J1, J2 by done.
    by rewrite !prop_spread_singleton. }
  assert (Hin : existsb (λ r, ingressRulesEqual r (ingressCandidate p2 c d2))
                  (directIngressRules (addIngressRule p1 c d1 this).2) = true).
  { apply existsb_ingressRulesEqual. rewrite Hk.
    apply existsb_ingressRulesEqual.
    apply (addIngressRule_puts_rule p1 c d1 this H1). }
  rewrite (addIngressRule_inline p2) by done.
  rewrite addDirectIngressRule_run. by rewrite Hin.
Qed.

Lemma ingress_prefix_lists_not_told_apart_witness :
  directIngressRules
    (run [AddIngressRule (prefix_list_peer "pl-1" "pl-1") tcp80 None;
          AddIngressRule (prefix_list_peer "pl-2" "pl-2") tcp80 None] fresh_deny)
  = [ingressCandidate (prefix_list_peer "pl-1" "pl-1") tcp80 None].
Proof.
  change (directIngressRules
            (addIngressRule (prefix_list_peer "pl-2" "pl-2") tcp80 None
               (addIngressRule (prefix_list_peer "pl-1" "pl-1") tcp80 None
                  fresh_deny).2).2
          = [ingressCandidate (prefix_list_peer "pl-1" "pl-1") tcp80 None]).
  rewrite (ingress_prefix_lists_not_told_apart
             (prefix_list_peer "pl-1" "pl-1") (prefix_list_peer "pl-2" "pl-2")
             tcp80 None None (JStr "pl-1") (JStr "pl-2") fresh_deny
             eq_refl eq_refl eq_refl eq_refl).
  reflexivity.
Defined.

(** X14.  Every rule in the ingress list and in the egress list of a group
    reached from construction carries a description that is a string. *)
Theorem rules_have_descriptions parentPath name props cs r :
  r ∈ directIngressRules (run cs (new_SecurityGroup parentPath name props))
  ∨ r ∈ directEgressRules (run cs (new_SecurityGroup parentPath name props)) →
  ∃ d, prop r "description" = JStr d.
Proof.
  pose (described := λ l : list JsObj,
          ∀ r, r ∈ l → ∃ d, prop r "description" = JStr d).
  pose (P := λ this : SecurityGroup,
          described (directIngressRules this)
          ∧ described (directEgressRules this)).
  assert (Happ : ∀ l j c d, described l → described (l ++ [inlineRule j c d])%list).
  { intros l j c d Hl r' [Hr| ->%list_elem_of_singleton]%elem_of_app;
      [by apply Hl|]. eexists. apply prop_inlineRule_description. }
  assert (HP : P (run cs (new_SecurityGroup parentPath name props))).
  { apply run_invariant.
    - clear cs r. intros c this [Hin Heg]. split.
      + destruct (call_ingress_list c this) as [l Hl].
        destruct c as [p c d|p c d]; simpl in *.
        * rewrite addIngressRule_list. destruct (_ && _); [|done].
          by apply Happ.
        * by rewrite (proj1 (addEgressRule_frame p c d this)).
      + destruct (allowAllOutbound this) eqn:Hm.
        { by rewrite call_egress_list_allow. }
        destruct c as [p c d|p c d]; simpl.
        * by rewrite addIngressRule_keeps_egress.
        * rewrite addEgressRule_list by done. cbv zeta.
          assert (described (remove_first
                    (λ r, egressRulesEqual r MATCH_NO_TRAFFIC)
                    (directEgressRules this))) as Hrem.
          { intros r' Hr'%elem_of_remove_first. by apply Heg. }
          destruct (_ && _); [|done]. by apply Happ.
    - split.
      + destruct (new_SecurityGroup_fresh parentPath name props) as [-> _].
        intros r' Hr'. by apply elem_of_nil in Hr'.
      + unfold new_SecurityGroup. unfold_methods.
        destruct (props_allowAllOutbound props) as [[]|]; simpl;
          intros r' ->%list_elem_of_singleton; by eexists. }
  destruct HP as [Hin Heg]. intros [Hr|Hr]; [by apply Hin|by apply Heg].
Qed.

Lemma rules_have_descriptions_witness :
  ∃ d, prop (ingressCandidate internal_net tcp22 None) "description" = JStr d.
Proof.
  apply (rules_have_descriptions "Stack" "SG" deny_props
           [AddIngressRule internal_net tcp22 None]).
  left. apply list_elem_of_In. left. reflexivity.
Defined.

(** ** The children of a reachable group *)

Lemma addDirectIngressRule_children rule (this : SecurityGroup) :
  children (addDirectIngressRule rule this).2 = children this.
Proof. rewrite addDirectIngressRule_run. simpl. by destruct (existsb _ _). Qed.

Lemma addDirectEgressRule_children rule (this : SecurityGroup) :
  children (addDirectEgressRule rule this).2 = children this.
Proof. rewrite addDirectEgressRule_run. simpl. by destruct (existsb _ _). Qed.

Lemma ingressResourceId_from p c :
  ingressResourceId p c
  = "from " ++ replace_slash (uniqueId p ++ ":" ++ port_toString c).
Proof. reflexivity. Qed.

Lemma egressResourceId_to p c :
  egressResourceId p c
  = "to " ++ replace_slash (uniqueId p ++ ":" ++ port_toString c).
Proof. reflexivity. Qed.

Lemma call_children_ok (c : Call) (this : SecurityGroup) :
  children_ok this → children_ok (call c this).2.
Proof.
  intros Hok id r. destruct c as [p c d|p c d]; simpl.
  - destruct (canInline p c) eqn:E.
    + rewrite addIngressRule_inline, addDirectIngressRule_children by done.
      apply Hok.
    + rewrite addIngressRule_standalone, SecurityGroupBase_addIngressRule_eq
        by done. simpl.
      destruct (children this !! ingressResourceId p c); [apply Hok|]. simpl.
      rewrite lookup_insert. case_decide as Hid; [|apply Hok].
      intros [= <-]. right. left. subst id. rewrite ingressResourceId_from.
      by eexists _, _.
  - destruct (allowAllOutbound this) eqn:Hm.
    { rewrite addEgressRule_allow by done. apply Hok. }
    rewrite addEgressRule_deny by done. cbv zeta.
    rewrite removeNoTrafficRule_run. simpl.
    destruct (canInline p c).
    + destruct (isAllTrafficRule _); [apply Hok|].
      rewrite addDirectEgressRule_children. apply Hok.
    + rewrite SecurityGroupBase_addEgressRule_eq. simpl.
      destruct (children this !! egressResourceId p c); [apply Hok|]. simpl.
      rewrite lookup_insert. case_decide as Hid; [|apply Hok].
      intros [= <-]. right. right. subst id. rewrite egressResourceId_to.
      by eexists _, _.
Qed.

Lemma new_SecurityGroup_children_ok parentPath name props :
  children_ok (new_SecurityGroup parentPath name props).
Proof.
  intros id r. unfold new_SecurityGroup. unfold_methods.
  destruct (props_allowAllOutbound props) as [[]|]; simpl;
    rewrite lookup_singleton; case_decide; intros [= <-]; left;
    (split; [done|by eexists _, _, _]).
Qed.

Lemma reachable_children_ok parentPath name props cs :
  children_ok (run cs (new_SecurityGroup parentPath name props)).
Proof.
  apply run_invariant; [apply call_children_ok|].
  apply new_SecurityGroup_children_ok.
Qed.

(** X15.  The children of a group reached from construction are its own
    resource under the id "Resource", standalone ingress rules under ids
    that start with "from ", and standalone egress rules under ids that
    start with "to "; nothing else is ever registered. *)
Theorem reachable_children parentPath name props cs id r :
  children (run cs (new_SecurityGroup parentPath name props)) !! id = Some r →
  (id = "Resource" ∧ ∃ g d v, r = CfnSecurityGroup g d v)
  ∨ (∃ rest props', id = "from " ++ rest ∧ r = CfnSecurityGroupIngress props')
  ∨ (∃ rest props', id = "to " ++ rest ∧ r = CfnSecurityGroupEgress props').
Proof. apply reachable_children_ok. Qed.

Lemma reachable_children_witness :
  ∃ rest props',
    egressResourceId other_group tcp22 = "to " ++ rest
    ∧ CfnSecurityGroupEgress
        (resourceProps (securityGroupId fresh_deny)
           (toEgressRuleJSON other_group) tcp22 "mine")
      = CfnSecurityGroupEgress props'.
Proof.
  destruct (reachable_children "Stack" "SG" deny_props
              [AddIngressRule other_group tcp22 None;
               AddEgressRule other_group tcp22 (Some "mine")]
              (egressResourceId other_group tcp22)
              (CfnSecurityGroupEgress
                 (resourceProps (securityGroupId fresh_deny)
                    (toEgressRuleJSON other_group) tcp22 "mine"))
              eq_refl)
    as [[Hid _]|[(rest & props' & _ & Hr)|H]].
  - discriminate Hid.
  - discriminate Hr.
  - exact H.
Defined.

(** X16.  On a group reached from construction, an [addIngressRule] call
    whose peer or connection cannot be inlined leaves the ingress list as it
    was, and afterwards a standalone ingress rule is registered under the id
    of the call.  If the id was free before, that rule is the one of the
    call: the group's id, the peer's and the connection's properties, and
    the description given or else the id as it was before the slash was
    replaced. *)
Theorem standalone_ingress_registered parentPath name props cs p c d :
  canInline p c = false →
  let this := run cs (new_SecurityGroup parentPath name props) in
  directIngressRules (addIngressRule p c d this).2 = directIngressRules this
  ∧ ∃ props',
      children (addIngressRule p c d this).2 !! ingressResourceId p c
        = Some (CfnSecurityGroupIngress props')
      ∧ (children this !! ingressResourceId p c = None →
         props' = resourceProps (securityGroupId this) (toIngressRuleJSON p) c
                    (default ("from " ++ uniqueId p ++ ":" ++ port_toString c) d)).
Proof.
  intros Hi this. split.
  { by rewrite addIngressRule_list, Hi. }
  pose proof (reachable_children_ok parentPath name props cs) as Hok.
  fold this in Hok.
  rewrite addIngressRule_standalone, SecurityGroupBase_addIngressRule_eq by done.
  simpl. destruct (children this !! ingressResourceId p c) as [r|] eqn:E.
  - destruct (Hok _ _ E) as [[Hid _]|[(rest & props' & _ & ->)|(rest & ? & Hid & _)]].
    + rewrite ingressResourceId_from in Hid. discriminate.
    + exists props'. by split.
    + rewrite ingressResourceId_from in Hid. discriminate.
  - eexists. split; [apply lookup_insert_eq|done].
Qed.

Lemma standalone_ingress_registered_witness :
  ∃ props',
    children (addIngressRule other_group tcp22 None fresh_deny).2
      !! "from Stack_Other:22" = Some (CfnSecurityGroupIngress props')
    ∧ prop props' "description" = JStr "from Stack/Other:22"
    ∧ prop props' "groupId" = JStr (securityGroupId fresh_deny)
    ∧ prop props' "sourceSecurityGroupId" = JStr "sg-2".
Proof.
  destruct (standalone_ingress_registered "Stack" "SG" deny_props []
              other_group tcp22 None eq_refl) as (_ & props' & Hc & Hp).
  exists props'. split; [exact Hc|].
  rewrite (Hp eq_refl). repeat split; reflexivity.
Defined.

(** X17.  On a deny-by-default group reached from construction, after an
    [addEgressRule] call that cannot be inlined, a second such call whose
    peer and connection give the same id leaves the group as it is, whatever
    its description.  It returns when the id holds no slash, and throws when
    the id still holds a slash. *)
Theorem standalone_egress_same_id
    parentPath name props cs p1 c1 d1 p2 c2 d2 :
  props_allowAllOutbound props = Some false →
  canInline p1 c1 = false →
  canInline p2 c2 = false →
  egressResourceId p1 c1 = egressResourceId p2 c2 →
  let this1 :=
    (addEgressRule p1 c1 d1 (run cs (new_SecurityGroup parentPath name props))).2 in
  (addEgressRule p2 c2 d2 this1).2 = this1
  ∧ (keeps_slash (egressResourceId p2 c2) = false →
     (addEgressRule p2 c2 d2 this1).1 = Normal ())
  ∧ (keeps_slash (egressResourceId p2 c2) = true →
     raises (addEgressRule p2 c2 d2 this1)).
Proof.
  intros H H1 H2 Hid this1.
  destruct (new_SecurityGroup_deny parentPath name props H) as [Hm _].
  rewrite <- (run_allowAllOutbound cs) in Hm.
  assert (Hm1 : allowAllOutbound this1 = false).
  { unfold this1. by rewrite (proj2 (addEgressRule_frame p1 c1 d1 _)). }
  assert (Hnone : holds_no_traffic_rule (directEgressRules this1) = false).
  { unfold this1.
    rewrite (holds_no_traffic_rule_after_call _ _ _ _ _ _ _ H).
    simpl. by rewrite H1. }
  assert (Hchild : is_Some (children this1 !! egressResourceId p2 c2)).
  { rewrite <- Hid. unfold this1. rewrite addEgressRule_deny by done. cbv zeta.
    rewrite H1. generalize (removeNoTrafficRule
      (run cs (new_SecurityGroup parentPath name props))).2. intros s0.
    rewrite SecurityGroupBase_addEgressRule_eq.
    destruct (children s0 !! egressResourceId p1 c1) eqn:E; simpl.
    - rewrite E. by eexists.
    - rewrite lookup_insert_eq. by eexists. }
  destruct Hchild as [r Hr].
  rewrite addEgressRule_deny by done. cbv zeta.
  rewrite removeNoTrafficRule_run, remove_first_none by done.
  rewrite with_directEgressRules_id, H2. simpl.
  rewrite SecurityGroupBase_addEgressRule_eq, Hr. simpl.
  split; [done|]. split; intros ->; [done|]. by eexists.
Qed.

Lemma standalone_egress_same_id_witness :
  addEgressRule other_group tcp22 (Some "again")
    (addEgressRule other_group tcp22 None fresh_deny).2
  = (Normal (), (addEgressRule other_group tcp22 None fresh_deny).2)
  ∧ raises (addEgressRule slashed_peer tcp22 None
              (addEgressRule slashed_peer tcp22 None fresh_deny).2).
Proof.
  split.
  - destruct (standalone_egress_same_id "Stack" "SG" deny_props []
                other_group tcp22 None other_group tcp22 (Some "again")
                eq_refl eq_refl eq_refl eq_refl) as (Hs & Hn & _).
    apply injective_projections; [exact (Hn eq_refl)|exact Hs].
  - exact (proj2 (proj2 (standalone_egress_same_id "Stack" "SG" deny_props []
                           slashed_peer tcp22 None slashed_peer tcp22 None
                           eq_refl eq_refl eq_refl eq_refl)) eq_refl).
Defined.

(** * Artifact paths *)

Lemma string_app_assoc (a b c : string) : (a ++ b) ++ c = a ++ (b ++ c).
Proof.
  induction a as [|x a IH]; [done|].
  change (String x ((a ++ b) ++ c) = String x (a ++ (b ++ c))). by f_equal.
Qed.

Lemma string_app_length (a b : string) :
  String.length (a ++ b) = (String.length a + String.length b)%nat.
Proof.
  induction a as [|x a IH]; [done|].
  change (S (String.length (a ++ b)) = S (String.length a + String.length b)).
  by f_equal.
Qed.

(** X18.  The location of a file in an artifact is the artifact's name, two
    colons and the file name.  Within one artifact different file names give
    different locations; across artifacts the location does not tell where
    the name ends: an artifact named [n ++ "::" ++ x] with file [f] and an
    artifact named [n] with file [x ++ "::" ++ f] have the same location. *)
Theorem artifact_location (a : Artifact) :
  (∀ f, String.length (location (atPath a f))
        = (String.length (Artifact_toString a) + 2 + String.length f)%nat)
  ∧ (∀ f1 f2, location (atPath a f1) = location (atPath a f2) → f1 = f2)
  ∧ (∀ x f,
       location (atPath {| artifact_parentPath := artifact_parentPath a;
                           artifact_name := artifact_name a ++ "::" ++ x |} f)
       = location (atPath a (x ++ "::" ++ f))).
Proof.
  split; [|split].
  - intros f. unfold location, atPath, Artifact_toString. simpl.
    rewrite !string_app_length.
    change (String.length "::") with 2%nat. lia.
  - intros f1 f2. unfold location, atPath. simpl. intros Heq.
    apply (inj (String.app (artifact_name a))) in Heq. by simplify_eq.
  - intros x f. unfold location, atPath. simpl.
    by rewrite !string_app_assoc.
Qed.
